(** * Folder watcher of go-dbxapi: change tracking over a cursor-based listing feed

    Shallow embedding of [FolderWatcher] (constructor, cancellation, listing
    reconciliation, long-poll driver and run loop) and of the result types of
    [dbxapi.go] it consumes, followed by the properties established about them.

    Conventions of the embedding.
    - Go maps are finite maps ([gmap]); a lookup of an absent key, which in Go
      yields the nil pointer, is [None].
    - The rows of a listing are [*FolderEntry] values decoded from the
      response; the watcher only reads them, so a row is modelled by its
      record.  A nil row makes [fetch] dereference nil at [ent.PathLower];
      rows are taken non-nil.
    - A [range] over a Go map visits the keys in an unspecified order; the
      loops over [delm] are written over an arbitrary enumeration and the
      watcher uses [map_to_list].  [range_delm_perm] shows that the stores do
      not depend on the order; the order of [Removed] does.
    - The transport ([Client.RPC]) is the environment: a script of exchanges
      answers the requests one after the other. *)

From Stdlib Require Import ZArith Lia Ascii.
From stdpp Require Import gmap strings list fin_maps.

Open Scope string_scope.
Open Scope list_scope.

(** ** Data model ([dbxapi.go]) *)

(** [FolderEntry]: the fields the watcher reads ([Tag], [Id], [PathLower])
    and the scalar payload.  [ClientModified], [ServerModified] and
    [MediaInfo] are pointers to payload the watcher never follows. *)
Record FolderEntry := mkEntry {
  Tag         : string;   (* "file", "folder", "deleted" *)
  Name        : string;
  Id          : string;
  Rev         : string;
  Size        : N;        (* uint64 *)
  PathLower   : string;
  PathDisplay : string
}.

#[global] Instance FolderEntry_eq_dec : EqDecision FolderEntry.
Proof. solve_decision. Defined.

(** [ListFolderResult]; the embedded [Result] (the error tag and summary of
    the API) is never read by the watcher.  Its fields are qualified, since
    the watcher has a [Cursor] of its own. *)
Module ListFolderResult.
Record t := mk {
  Entries : list FolderEntry;
  Cursor  : string;
  HasMore : bool
}.
End ListFolderResult.

Record ListFolderLongPollResult := mkLongPollResult {
  Changes : bool;
  Backoff : N             (* uint64, seconds *)
}.

(** The three requests of the watcher, with the fields of [ListFolderReq],
    [ListFolderContReq] and [ListFolderLongpollReq]. *)
Inductive request :=
| ListFolderReq (Path : string)
                (Recursive IncludeMediaInfo IncludeDeleted
                 IncludeHasExplicitSharedMembers : bool)
| ListFolderContReq (Cursor : string)
| ListFolderLongpollReq (Cursor : string) (Timeout : N).

#[global] Instance request_eq_dec : EqDecision request.
Proof. solve_decision. Defined.

(** Go [error] values, by dynamic type: [dbxapi.Error] (a string type),
    the value of [errors.New], and the error types of the libraries
    [Client.RPC] calls (encoding/json, net/http, net/url, io). *)
Inductive error :=
| Error (s : string)
| errorString (s : string)
| libError (typ msg : string).

#[global] Instance error_eq_dec : EqDecision error.
Proof. solve_decision. Defined.

Definition ErrCanceled : error := Error "canceled".

(** The four places where [Client.RPC] returns a non-nil error: the error of
    [json.Marshal], of [http.Client.Do], of [checkRsp] (always built with
    [errors.New]) and of the JSON decoder. *)
Inductive rpc_failure :=
| MarshalFailed (typ msg : string)
| DoFailed (typ msg : string)
| CheckRspFailed (msg : string)
| DecodeFailed (typ msg : string).

Definition rpc_error (f : rpc_failure) : error :=
  match f with
  | MarshalFailed typ msg => libError typ msg
  | DoFailed typ msg => libError typ msg
  | CheckRspFailed msg => errorString msg
  | DecodeFailed typ msg => libError typ msg
  end.

Record FolderChanges := mkChanges {
  Added   : list string;
  Updated : list string;
  Removed : list string
}.

#[global] Instance FolderChanges_eq_dec : EqDecision FolderChanges.
Proof. solve_decision. Defined.

(** ** The reconciliation loops of [fetch] *)

(** State of the first loop of [fetch]: the two maps of the watcher, the
    [Added] and [Updated] slices of [changes], and [delm]. *)
Record loop_state := mkLoop {
  lById    : gmap string FolderEntry;
  lByPath  : gmap string FolderEntry;
  lAdded   : list string;
  lUpdated : list string;
  delm     : gmap string string
}.

(** One iteration of [for _, ent := range r.Entries].  The two inner tests
    [if prevEntAtPath != nil] are kept where the source has them: the one in
    the branch where [prevEntAtPath] is nil never holds. *)
Definition fetch_entry (s : loop_state) (ent : FolderEntry) : loop_state :=
  let prevEntAtPath := lByPath s !! PathLower ent in
  if decide (Tag ent = "deleted") then
    match prevEntAtPath with
    | Some prev =>
        mkLoop (lById s) (lByPath s) (lAdded s) (lUpdated s)
               (<[Id prev := PathLower ent]> (delm s))
    | None => s
    end
  else
    let s1 :=
      match prevEntAtPath with
      | Some prev =>
          if decide (Id prev ≠ Id ent) then
            match lById s !! Id prev with
            | Some _ =>
                mkLoop (lById s) (lByPath s) (lAdded s)
                       (lUpdated s ++ [Id ent]) (<[Id prev := ""]> (delm s))
            | None =>
                mkLoop (lById s) (lByPath s) (lAdded s ++ [Id ent])
                       (lUpdated s) (delm s)
            end
          else
            let delm1 :=
              match prevEntAtPath with
              | Some _ => delete (Id ent) (delm s)
              | None => delm s
              end in
            mkLoop (lById s) (lByPath s) (lAdded s)
                   (lUpdated s ++ [Id ent]) delm1
      | None =>
          let delm1 :=
            match prevEntAtPath with
            | Some _ => delete (Id ent) (delm s)
            | None => delm s
            end in
          mkLoop (lById s) (lByPath s) (lAdded s ++ [Id ent])
                 (lUpdated s) delm1
      end in
    mkLoop (<[Id ent := ent]> (lById s1)) (<[PathLower ent := ent]> (lByPath s1))
           (lAdded s1) (lUpdated s1) (delm s1).

Definition fetch_entries (s : loop_state) (ents : list FolderEntry) : loop_state :=
  foldl fetch_entry s ents.

(** State of the second loop: the maps, the [Removed] slice (allocated with
    [len(delm)] elements) and the index [i]. *)
Record resolve_state := mkResolve {
  rById    : gmap string FolderEntry;
  rByPath  : gmap string FolderEntry;
  rRemoved : list string;
  rIdx     : nat
}.

(** One iteration of [for id, removedPath := range delm]. *)
Definition resolve_entry (s : resolve_state) (kv : string * string) : resolve_state :=
  let '(id, removedPath) := kv in
  let byPath1 :=
    if decide (String.length removedPath ≠ 0)
    then delete removedPath (rByPath s) else rByPath s in
  mkResolve (delete id (rById s)) byPath1 (<[rIdx s := id]> (rRemoved s)) (S (rIdx s)).

Definition range_delm (s : resolve_state) (kvs : list (string * string)) : resolve_state :=
  foldl resolve_entry s kvs.

(** Lines 147 to 198 of [fetch]: both loops, from the maps of the watcher to
    the new maps and [changes]. *)
Definition reconcile (byId byPath : gmap string FolderEntry) (ents : list FolderEntry)
  : gmap string FolderEntry * gmap string FolderEntry * FolderChanges :=
  let s := fetch_entries (mkLoop byId byPath [] [] ∅) ents in
  let r := range_delm (mkResolve (lById s) (lByPath s)
                                 (replicate (size (delm s)) "") 0)
                      (map_to_list (delm s)) in
  (rById r, rByPath r, mkChanges (lAdded s) (lUpdated s) (rRemoved r)).

(** The loop of [fetchInitial]: every row is stored under its [Id] and its
    [PathLower], whatever its [Tag], and [Added[i]] receives its [Id]. *)
Record initial_state := mkInitial {
  iById   : gmap string FolderEntry;
  iByPath : gmap string FolderEntry;
  iAdded  : list string;
  iIdx    : nat
}.

Definition initial_entry (s : initial_state) (ent : FolderEntry) : initial_state :=
  mkInitial (<[Id ent := ent]> (iById s)) (<[PathLower ent := ent]> (iByPath s))
            (<[iIdx s := Id ent]> (iAdded s)) (S (iIdx s)).

Definition reconcile_initial (byId byPath : gmap string FolderEntry)
    (ents : list FolderEntry)
  : gmap string FolderEntry * gmap string FolderEntry * FolderChanges :=
  let s := foldl initial_entry
                 (mkInitial byId byPath (replicate (length ents) "") 0) ents in
  (iById s, iByPath s, mkChanges (iAdded s) [] []).

(** ** Channels *)

(** A Go channel as the watcher uses it: its capacity and the number of
    buffered elements.  A channel field is an [option chan]; [None] is the
    nil channel. *)
Record chan := mkChan { chan_cap : nat; chan_len : nat }.

Definition make_chan (cap : nat) : chan := mkChan cap 0.

(** [c <- v] when no receiver is waiting: the value is buffered if there is
    room; otherwise ([None]) the sender blocks.  A send on the nil channel
    blocks forever. *)
Definition chan_send (c : option chan) : option chan :=
  match c with
  | Some ch =>
      if (chan_len ch <? chan_cap ch)%nat
      then Some (mkChan (chan_cap ch) (S (chan_len ch)))
      else None
  | None => None
  end.

(** [select { case <-c: ...; default: ... }]: the channel after a receive,
    or [None] when the default case is taken. *)
Definition chan_try_recv (c : option chan) : option chan :=
  match c with
  | Some ch =>
      match chan_len ch with
      | S n => Some (mkChan (chan_cap ch) n)
      | O => None
      end
  | None => None
  end.

(** ** The watcher *)

Record Client := mkClient { AccessToken : string }.

(** [type DirMode int] *)
Definition DirMode := Z.
Definition DirModeShallow : DirMode := 0%Z.
Definition DirModeRecursive : DirMode := 1%Z.

(** [FolderWatcher].  The callback [changecb] is the caller's code: a call
    of it is recorded as an event, see [event]. *)
Record FolderWatcher := mkWatcher {
  hasMore       : bool;
  exitch        : option chan;
  cancelch      : option chan;
  canceled      : bool;
  client        : Client;
  Cursor        : string;
  Path          : string;
  dirMode       : DirMode;
  EntriesById   : gmap string FolderEntry;
  EntriesByPath : gmap string FolderEntry;
  Exit          : option chan
}.

Definition NewFolderWatcher (client : option Client) (path : string) (m : DirMode)
  : option FolderWatcher :=
  match client with
  | None => None
  | Some c =>
      let exitch := Some (make_chan 0) in
      let cancelch := Some (make_chan 1) in
      Some (mkWatcher false exitch cancelch false c "" path m ∅ ∅ exitch)
  end.

Definition set_cancel (w : FolderWatcher) (ch : option chan) (c : bool) : FolderWatcher :=
  mkWatcher (hasMore w) (exitch w) ch c (client w) (Cursor w) (Path w)
            (dirMode w) (EntriesById w) (EntriesByPath w) (Exit w).

Definition set_cursor (w : FolderWatcher) (cur : string) (more : bool) : FolderWatcher :=
  mkWatcher more (exitch w) (cancelch w) (canceled w) (client w) cur (Path w)
            (dirMode w) (EntriesById w) (EntriesByPath w) (Exit w).

Definition set_hasMore (w : FolderWatcher) (more : bool) : FolderWatcher :=
  set_cursor w (Cursor w) more.

Definition set_entries (w : FolderWatcher) (byId byPath : gmap string FolderEntry)
  : FolderWatcher :=
  mkWatcher (hasMore w) (exitch w) (cancelch w) (canceled w) (client w) (Cursor w)
            (Path w) (dirMode w) byId byPath (Exit w).

(** [Cancel], called from any goroutine: a plain send on [cancelch].  The
    result is the watcher after the send, or [None] when the send blocks. *)
Definition Cancel (w : FolderWatcher) : option FolderWatcher :=
  match chan_send (cancelch w) with
  | Some ch => Some (set_cancel w (Some ch) (canceled w))
  | None => None
  end.

(** ** The environment and the monad of the run loop *)

(** What the watcher does to the outside: a round trip of [Client.RPC] with
    the error it returned, a call of the change callback, a [time.Sleep]
    (the [time.Duration] in nanoseconds, an int64), and a send on [exitch]
    taken by the receiver of [Exit]. *)
Inductive event :=
| EvRPC (req : request) (err : option error)
| EvChange (c : FolderChanges)
| EvSleep (d : Z)
| EvExit (e : error).

#[global] Instance event_eq_dec : EqDecision event.
Proof. solve_decision. Defined.

(** One round trip: the error [Client.RPC] returns (if any), the value
    decoded into [res] for a listing request and for a long-poll request, and
    the number of [Cancel] calls other goroutines make before the watcher
    next looks at [cancelch]. *)
Record exchange := mkExchange {
  cancel_calls : nat;
  rpc_err      : option rpc_failure;
  list_res     : ListFolderResult.t;
  poll_res     : ListFolderLongPollResult
}.

(** [n] calls of [Cancel] by other goroutines; a call that blocks leaves the
    watcher as it is. *)
Fixpoint cancels (n : nat) (w : FolderWatcher) : FolderWatcher :=
  match n with
  | O => w
  | S k => cancels k (match Cancel w with Some w' => w' | None => w end)
  end.

Record world := mkWorld {
  watcher : FolderWatcher;
  script  : list exchange;
  trace   : list event
}.

(** A call returns, or blocks forever (no reply left in the script, or a
    send on a nil exit channel), or a loop used up its fuel. *)
Inductive outcome (A : Type) :=
| Ret (a : A)
| Blocked
| OutOfFuel.
Arguments Ret {A} a.
Arguments Blocked {A}.
Arguments OutOfFuel {A}.

Definition M (A : Type) : Type := world → outcome A * world.

Definition ret {A} (a : A) : M A := λ σ, (Ret a, σ).

Definition bind {A B} (m : M A) (k : A → M B) : M B :=
  λ σ, match m σ with
       | (Ret a, σ') => k a σ'
       | (Blocked, σ') => (Blocked, σ')
       | (OutOfFuel, σ') => (OutOfFuel, σ')
       end.

Declare Scope watcher_scope.
Delimit Scope watcher_scope with watcher.
Notation "x <- m ;; k" := (bind m (λ x, k))
  (at level 100, m at next level, right associativity) : watcher_scope.
Notation "m >> k" := (bind m (λ _, k))
  (at level 100, right associativity) : watcher_scope.
Open Scope watcher_scope.

Definition get_watcher : M FolderWatcher := λ σ, (Ret (watcher σ), σ).

Definition put_watcher (w : FolderWatcher) : M unit :=
  λ σ, (Ret tt, mkWorld w (script σ) (trace σ)).

Definition emit (ev : event) : M unit :=
  λ σ, (Ret tt, mkWorld (watcher σ) (script σ) (trace σ ++ [ev])).

(** [Client.RPC]: the next exchange of the script answers. *)
Definition RPC (req : request) : M exchange :=
  λ σ, match script σ with
       | [] => (Blocked, σ)
       | x :: rest =>
           (Ret x, mkWorld (cancels (cancel_calls x) (watcher σ)) rest
                           (trace σ ++ [EvRPC req (rpc_error <$> rpc_err x)]))
       end.

(** [Send] of the two listing requests and of the long-poll request:
    [return &res, err]. *)
Definition Send_list (req : request) : M (ListFolderResult.t * option error) :=
  x <- RPC req ;; ret (list_res x, rpc_error <$> rpc_err x).

Definition Send_longpoll (req : request)
  : M (ListFolderLongPollResult * option error) :=
  x <- RPC req ;; ret (poll_res x, rpc_error <$> rpc_err x).

(** [w.exitch <- e].  The channel is unbuffered: the send completes when the
    caller receives from [Exit], which is taken for granted and recorded as
    [EvExit]; on a nil channel the send blocks forever. *)
Definition exit_send (e : error) : M unit :=
  λ σ, match exitch (watcher σ) with
       | Some _ => emit (EvExit e) σ
       | None => (Blocked, σ)
       end.

Definition checkCanceled : M bool :=
  w <- get_watcher ;;
  if canceled w then ret true
  else match chan_try_recv (cancelch w) with
       | Some ch => put_watcher (set_cancel w (Some ch) true) >> ret true
       | None => ret false
       end.

Definition checkCanceledAndExit : M bool :=
  c <- checkCanceled ;;
  if c then exit_send ErrCanceled >> ret true
  else ret false.

Definition checkResult (r : ListFolderResult.t) (err : option error) : M bool :=
  match err with
  | Some e => exit_send e >> ret false
  | None =>
      c <- checkCanceledAndExit ;;
      if c then ret false
      else
        w <- get_watcher ;;
        put_watcher (set_cursor w (ListFolderResult.Cursor r)
                                (ListFolderResult.HasMore r)) >>
        ret true
  end.

Definition fetchInitial : M bool :=
  w <- get_watcher ;;
  res <- Send_list (ListFolderReq (Path w)
                     (bool_decide (dirMode w = DirModeRecursive))
                     false false false) ;;
  let '(r, err) := res in
  ok <- checkResult r err ;;
  if negb ok then ret false
  else
    (if (0 <? length (ListFolderResult.Entries r))%nat then
       w <- get_watcher ;;
       let '(byId, byPath, changes) :=
         reconcile_initial (EntriesById w) (EntriesByPath w)
                           (ListFolderResult.Entries r) in
       put_watcher (set_entries w byId byPath) >>
       emit (EvChange changes)
     else ret tt) >>
    ret true.

Definition has_changes (c : FolderChanges) : bool :=
  (0 <? length (Added c))%nat || (0 <? length (Updated c))%nat
  || (0 <? length (Removed c))%nat.

Definition fetch : M bool :=
  w <- get_watcher ;;
  if decide (Cursor w = "") then fetchInitial
  else
    res <- Send_list (ListFolderContReq (Cursor w)) ;;
    let '(r, err) := res in
    ok <- checkResult r err ;;
    if negb ok then ret false
    else if (length (ListFolderResult.Entries r) =? 0)%nat then ret true
    else
      w <- get_watcher ;;
      let '(byId, byPath, changes) :=
        reconcile (EntriesById w) (EntriesByPath w)
                  (ListFolderResult.Entries r) in
      put_watcher (set_entries w byId byPath) >>
      (if has_changes changes then emit (EvChange changes) else ret tt) >>
      ret true.

(** [time.Duration(r.Backoff) * time.Second]: the conversion of the uint64
    to int64 and the int64 product both wrap around. *)
Definition wrap_int64 (z : Z) : Z :=
  ((z + 2 ^ 63) mod 2 ^ 64 - 2 ^ 63)%Z.

Definition Second : Z := 1000000000%Z.

Definition backoff_duration (backoff : N) : Z :=
  wrap_int64 (wrap_int64 (Z.of_N backoff) * Second).

(** The time [time.Sleep d] pauses for at least: nothing when [d <= 0]. *)
Definition slept (d : Z) : Z := Z.max 0 d.

(** The loop of [waitForChanges]; every iteration makes one round trip. *)
Fixpoint waitForChanges (fuel : nat) : M bool :=
  match fuel with
  | O => λ σ, (OutOfFuel, σ)
  | S fuel' =>
      w <- get_watcher ;;
      res <- Send_longpoll (ListFolderLongpollReq (Cursor w) 30) ;;
      let '(r, err) := res in
      match err with
      | Some e => exit_send e >> ret false
      | None =>
          c <- checkCanceledAndExit ;;
          if c then ret false
          else
            (if (0 <? Backoff r)%N
             then emit (EvSleep (backoff_duration (Backoff r))) else ret tt) >>
            if Changes r then
              w <- get_watcher ;;
              put_watcher (set_hasMore w true) >>
              ret true
            else waitForChanges fuel'
      end
  end.

(** The inner loop of [Run]: [false] when [Run] returns, [true] on [break]. *)
Fixpoint fetch_loop (fuel : nat) : M bool :=
  match fuel with
  | O => λ σ, (OutOfFuel, σ)
  | S fuel' =>
      ok <- fetch ;;
      if negb ok then ret false
      else
        w <- get_watcher ;;
        if negb (hasMore w) then ret true
        else fetch_loop fuel'
  end.

(** The outer loop of [Run].  The inner loops get the same fuel: each of
    their iterations takes one exchange from the script. *)
Fixpoint run_loop (fuel inner : nat) : M unit :=
  match fuel with
  | O => λ σ, (OutOfFuel, σ)
  | S fuel' =>
      ok <- fetch_loop inner ;;
      if negb ok then ret tt
      else
        ok <- waitForChanges inner ;;
        if negb ok then ret tt
        else run_loop fuel' inner
  end.

(** [Run]: the change callback is the [EvChange] events.  The fuel exceeds
    the number of exchanges left, so that the loops only stop as the source
    does, or blocked on a request without reply ([Run_fuel_enough]). *)
Definition Run : M unit :=
  λ σ, run_loop (S (length (script σ))) (S (length (script σ))) σ.

(** ** The client ([dbxapi.go]) *)

Definition apiURLPrefix : string := "https://api.dropboxapi.com/2/".
Definition notifyURLPrefix : string := "https://notify.dropboxapi.com/2/".

(** The URL each [Send] hands to [Client.RPC]. *)
Definition request_url (req : request) : string :=
  match req with
  | ListFolderReq _ _ _ _ _ => apiURLPrefix +:+ "files/list_folder"
  | ListFolderContReq _ => apiURLPrefix +:+ "files/list_folder/continue"
  | ListFolderLongpollReq _ _ => notifyURLPrefix +:+ "files/list_folder/longpoll"
  end.

(** [http.Header]: the values added under each key, in order.
    [Header_Add] is [Header.Add] for a key already in canonical form. *)
Definition Header_Add (key value : string) (h : gmap string (list string))
  : gmap string (list string) :=
  <[key := default [] (h !! key) ++ [value]]> h.

(** The header [Client.RPC] builds on the request that [http.NewRequest]
    returned (its error is dropped: the URL is taken to be one it accepts):
    [Authorization] when the URL is longer than [apiURLPrefix] and starts
    with it, then [Content-Type]. *)
Definition RPC_header (c : Client) (url : string) : gmap string (list string) :=
  let h0 : gmap string (list string) := ∅ in
  let h1 :=
    if (String.length apiURLPrefix <? String.length url)%nat
       && bool_decide (String.substring 0 (String.length apiURLPrefix) url = apiURLPrefix)
    then Header_Add "Authorization" ("Bearer " +:+ AccessToken c) h0
    else h0 in
  Header_Add "Content-Type" "application/json" h1.

(** What [checkRsp] reads of an [http.Response]: the status code and line,
    the URL of the request when [Request] and [Request.URL] are not nil, and
    the bytes [ioutil.ReadAll] gets from the body (its error is dropped). *)
Module Response.
Record t := mk {
  StatusCode : Z;
  Status     : string;
  Request    : option (option string);
  Body       : string
}.
End Response.

Definition checkRsp (rsp : Response.t) (minst maxst : Z) : option error :=
  if (minst <=? Response.StatusCode rsp)%Z && (Response.StatusCode rsp <=? maxst)%Z
  then None
  else
    let url :=
      match Response.Request rsp with
      | Some (Some u) => u
      | _ => "?"
      end in
    let err := errorString (url +:+ ": " +:+ Response.Status rsp) in
    if decide (Response.StatusCode rsp ≠ 404%Z) then
      let body := Response.Body rsp in
      if (0 <? String.length body)%nat && (String.length body <? 200)%nat
      then Some (errorString (url +:+ ": " +:+ body))
      else Some err
    else Some err.


(** [MediaMetadata] and [MediaInfo]: the tags [ImageType] reads and the
    integer payload ([Location] and [TimeTaken] are left out). *)
Module MediaMetadata.
Record t := mk {
  Tag        : string;          (* "photo", "video" *)
  Dimensions : option (N * N);  (* width, height *)
  Duration   : N
}.
End MediaMetadata.

Module MediaInfo.
Record t := mk {
  Tag      : string;            (* "pending", "metadata" *)
  Metadata : option MediaMetadata.t
}.
End MediaInfo.

(** A [FolderEntry] with its [MediaInfo] pointer, which the watcher never
    follows. *)
Record MediaEntry := mkMediaEntry {
  entry     : FolderEntry;
  MediaInfo : option MediaInfo.t
}.

(** [imageFileExts], as [init] fills it. *)
Definition imageFileExts : gmap string string :=
  <[".jpg" := "jpg"]> (<[".jpeg" := "jpg"]> (<[".png" := "png"]>
    (<[".gif" := "gif"]> ∅))).

(** [filepath.Ext] where the path separator is the slash: the loop runs
    from the last byte down, here over the reversed path, [suffix] being
    [path[i+1:]]. *)
Fixpoint Ext_scan (rev_path suffix : list ascii) : list ascii :=
  match rev_path with
  | [] => []
  | c :: rest =>
      if decide (c = "/"%char) then []
      else if decide (c = "."%char) then c :: suffix
      else Ext_scan rest (c :: suffix)
  end.

Definition Ext (path : string) : string :=
  String.string_of_list_ascii (Ext_scan (rev (String.list_ascii_of_string path)) []).

(** [s[1:]] for a string that is not empty. *)
Definition tail_string (s : string) : string :=
  match s with
  | String _ r => r
  | EmptyString => ""
  end.

(** [FolderEntry.ImageType]; [mime.TypeByExtension] reads the tables of the
    host and is a parameter. *)
Definition ImageType (TypeByExtension : string → string) (e : MediaEntry) : string :=
  if decide (Tag (entry e) ≠ "file") then ""
  else
    let ext := Ext (PathLower (entry e)) in
    if (String.length ext =? 0)%nat then ""
    else
      let photo :=
        match MediaInfo e with
        | Some mi =>
            if decide (MediaInfo.Tag mi = "metadata") then
              match MediaInfo.Metadata mi with
              | Some m => bool_decide (MediaMetadata.Tag m = "photo")
              | None => false
              end
            else false
        | None => false
        end in
      if photo then tail_string ext
      else
        let ext1 := default "" (imageFileExts !! ext) in
        if (0 <? String.length ext1)%nat then ext1
        else
          let t := TypeByExtension ext in
          if (5 <? String.length t)%nat && bool_decide (String.substring 0 5 t = "image/")
          then tail_string ext
          else "".

(** ** Closed forms of the control code *)

(** The pieces in which the proofs read one call of [fetch] and one iteration
    of [waitForChanges]; [fetch_eq] and [waitForChanges_eq] relate them to the
    embedded code. *)

(** Whether [checkCanceled] answers true, and the watcher it leaves. *)
Definition cancel_seen (w : FolderWatcher) : bool :=
  canceled w || match chan_try_recv (cancelch w) with
                | Some _ => true
                | None => false
                end.

Definition after_check (w : FolderWatcher) : FolderWatcher :=
  if canceled w then w
  else match chan_try_recv (cancelch w) with
       | Some ch => set_cancel w (Some ch) true
       | None => w
       end.

(** The request [fetch] sends. *)
Definition fetch_request (w : FolderWatcher) : request :=
  if decide (Cursor w = "")
  then ListFolderReq (Path w) (bool_decide (dirMode w = DirModeRecursive))
                     false false false
  else ListFolderContReq (Cursor w).

(** What [fetchInitial] ([initial = true]) and [fetch] do with the rows of an
    accepted response: the watcher and the call of the change callback. *)
Definition apply_listing (initial : bool) (w : FolderWatcher)
    (ents : list FolderEntry) : FolderWatcher * list event :=
  if initial then
    if (0 <? length ents)%nat then
      let res := reconcile_initial (EntriesById w) (EntriesByPath w) ents in
      (set_entries w res.1.1 res.1.2, [EvChange res.2])
    else (w, [])
  else
    if (length ents =? 0)%nat then (w, [])
    else
      let res := reconcile (EntriesById w) (EntriesByPath w) ents in
      (set_entries w res.1.1 res.1.2,
       if has_changes res.2 then [EvChange res.2] else []).

(** A send on [exitch] of the watcher [w], with the result [a]. *)
Definition exit_with {A} (a : A) (e : error) (w : FolderWatcher)
    (sc : list exchange) (tr : list event) : outcome A * world :=
  match exitch w with
  | Some _ => (Ret a, mkWorld w sc (tr ++ [EvExit e]))
  | None => (Blocked, mkWorld w sc tr)
  end.

Definition sleep_events (r : ListFolderLongPollResult) : list event :=
  if (0 <? Backoff r)%N then [EvSleep (backoff_duration (Backoff r))] else [].

(** ** Vocabulary of the statements *)

Definition is_content (e : FolderEntry) : Prop := Tag e ≠ "deleted".

#[global] Instance is_content_dec e : Decision (is_content e).
Proof. unfold is_content. apply _. Defined.

(** An event that is neither a delivery on the exit channel nor a failed
    round trip. *)
Definition quiet_event (ev : event) : Prop :=
  match ev with
  | EvExit _ => False
  | EvRPC _ (Some _) => False
  | _ => True
  end.

Definition quiet (t : list event) : Prop := Forall quiet_event t.

(** The trace of a call that makes the run loop return: quiet events, then
    the last round trip and the delivery of its error, or of [ErrCanceled]
    when it returned none. *)
Definition exit_suffix (t : list event) : Prop :=
  ∃ t0 req oe,
    t = t0 ++ [EvRPC req oe; EvExit (default ErrCanceled oe)] ∧ quiet t0.

Definition shape (stopped : bool) (t : list event) : Prop :=
  if stopped then exit_suffix t else quiet t.

(** The errors of the round trips are the errors [Client.RPC] builds. *)
Definition sourced_event (ev : event) : Prop :=
  match ev with
  | EvRPC _ (Some e) => ∃ f, e = rpc_error f
  | _ => True
  end.

Definition sourced (t : list event) : Prop := Forall sourced_event t.

(** What a call of the run loop guarantees: [stop a] tells whether the
    result [a] makes [Run] return. *)
Definition run_post {A} (stop : A → bool) (σ : world) (r : outcome A * world) : Prop :=
  exitch (watcher r.2) = exitch (watcher σ)
  ∧ (length (script r.2) ≤ length (script σ))%nat
  ∧ (∀ a, r.1 = Ret a → stop a = false →
          (length (script r.2) < length (script σ))%nat)
  ∧ ∃ t, trace r.2 = trace σ ++ t ∧ sourced t
         ∧ match r.1 with
           | Ret a => shape (stop a) t
           | _ => quiet t
           end.

Definition always_stop (_ : unit) : bool := true.

(** The errors delivered on the exit channel, in order. *)
Definition exits (t : list event) : list error :=
  omap (λ ev, match ev with EvExit e => Some e | _ => None end) t.

(** Every entry is stored under its own identity in [EntriesById] and under
    its own path key in [EntriesByPath]. *)
Definition keyed (byId byPath : gmap string FolderEntry) : Prop :=
  (∀ k e, byId !! k = Some e → Id e = k)
  ∧ (∀ p e, byPath !! p = Some e → PathLower e = p).

Definition store_keyed (w : FolderWatcher) : Prop :=
  keyed (EntriesById w) (EntriesByPath w).

(** The invariant the specification asks for: both maps index the same
    entries. *)
Definition store_consistent (w : FolderWatcher) : Prop :=
  (∀ k e, EntriesById w !! k = Some e →
          Id e = k ∧ EntriesByPath w !! PathLower e = Some e)
  ∧ (∀ p e, EntriesByPath w !! p = Some e →
            PathLower e = p ∧ EntriesById w !! Id e = Some e).

(** A property of the two maps, read on a watcher. *)
Definition holds (P : gmap string FolderEntry → gmap string FolderEntry → Prop)
    (w : FolderWatcher) : Prop :=
  P (EntriesById w) (EntriesByPath w).

(** The three buckets are pairwise disjoint. *)
Definition disjoint_buckets (c : FolderChanges) : Prop :=
  (∀ i, i ∈ Added c → i ∉ Updated c)
  ∧ (∀ i, i ∈ Added c → i ∉ Removed c)
  ∧ (∀ i, i ∈ Updated c → i ∉ Removed c).


(** An event of the long-poll driver: no call of the change callback, and
    no request but the long-poll with the given cursor. *)
Definition long_poll_event (cursor : string) (ev : event) : Prop :=
  match ev with
  | EvChange _ => False
  | EvRPC req _ => req = ListFolderLongpollReq cursor 30
  | _ => True
  end.

(** The entry carries the metadata of a photo: the test of [ImageType]. *)
Definition is_photo (e : MediaEntry) : bool :=
  match MediaInfo e with
  | Some mi =>
      if decide (MediaInfo.Tag mi = "metadata") then
        match MediaInfo.Metadata mi with
        | Some m => bool_decide (MediaMetadata.Tag m = "photo")
        | None => false
        end
      else false
  | None => false
  end.

(** The URL [checkRsp] names in its error. *)
Definition response_url (rsp : Response.t) : string :=
  match Response.Request rsp with
  | Some (Some u) => u
  | _ => "?"
  end.

(** ** Watchers, rows and replies of the examples *)

Definition row (tag id path rev : string) : FolderEntry :=
  mkEntry tag "n" id rev 0 path path.

Definition tombstone (path : string) : FolderEntry :=
  mkEntry "deleted" "n" "" "" 0 path path.

Definition id1_at_x : FolderEntry := row "file" "id1" "/x" "a".

Definition id2_at_y : FolderEntry := row "file" "id2" "/y" "b".

Definition id2_at_x : FolderEntry := row "file" "id2" "/x" "c".


(** A watcher as [NewFolderWatcher] builds it, and scripted exchanges. *)
Definition fresh_watcher : FolderWatcher :=
  mkWatcher false (Some (make_chan 0)) (Some (make_chan 1)) false
            (mkClient "token") "" "/photos" DirModeShallow ∅ ∅
            (Some (make_chan 0)).

Definition listing (ents : list FolderEntry) (cursor : string) (more : bool)
  : exchange :=
  mkExchange 0 None (ListFolderResult.mk ents cursor more) (mkLongPollResult false 0).

Definition polled (changes : bool) (backoff : N) : exchange :=
  mkExchange 0 None (ListFolderResult.mk [] "" false)
             (mkLongPollResult changes backoff).

Definition failing (f : rpc_failure) : exchange :=
  mkExchange 0 (Some f) (ListFolderResult.mk [] "" false) (mkLongPollResult false 0).

(** A watcher in the middle of a run: a cursor is stored and the store holds
    the given maps. *)
Definition tracking (byId byPath : gmap string FolderEntry) : FolderWatcher :=
  set_entries (set_cursor fresh_watcher "c0" false) byId byPath.

(** * Properties *)

(** ** The second loop of [fetch] *)

Section resolve.
Implicit Types (s : resolve_state) (kvs : list (string * string)).

Lemma range_delm_cons s kv kvs :
  range_delm s (kv :: kvs) = range_delm (resolve_entry s kv) kvs.
Proof. reflexivity. Qed.

(** Filling [Removed] by index yields the keys in the order visited. *)
Lemma range_delm_removed kvs : ∀ byId byPath (filled : list string),
  rRemoved (range_delm (mkResolve byId byPath
                          (filled ++ replicate (length kvs) "") (length filled)) kvs)
  = filled ++ kvs.*1.
Proof.
  induction kvs as [|[id p] kvs IH]; intros byId byPath filled.
  - reflexivity.
  - rewrite range_delm_cons. cbn [resolve_entry rById rByPath rRemoved rIdx].
    rewrite insert_app_r_alt by lia. rewrite Nat.sub_diag. cbn [length replicate].
    change (<[0:=id]> ("" :: replicate (length kvs) ""))
      with ([id] ++ replicate (length kvs) "").
    rewrite app_assoc.
    replace (S (length filled)) with (length (filled ++ [id]))
      by (rewrite length_app; simpl; lia).
    rewrite IH. rewrite <- app_assoc. reflexivity.
Qed.

Lemma range_delm_byId kvs : ∀ s k,
  rById (range_delm s kvs) !! k
  = if decide (k ∈ kvs.*1) then None else rById s !! k.
Proof.
  induction kvs as [|[id p] kvs IH]; intros s k.
  - cbn. case_decide as H; [by apply elem_of_nil in H | done].
  - rewrite range_delm_cons, IH, fmap_cons. cbn [resolve_entry rById fst].
    destruct (decide (k = id)) as [->|Hne].
    + rewrite lookup_delete_eq.
      rewrite (decide_True (P := id ∈ id :: kvs.*1)) by left.
      by case_decide.
    + rewrite lookup_delete_ne by done.
      apply decide_ext. rewrite elem_of_cons. intuition congruence.
Qed.

Lemma length_ne_0 (q : string) : String.length q ≠ 0 ↔ q ≠ "".
Proof. destruct q; cbn; split; congruence. Qed.

(** A path slot is cleared exactly when some visited pair records it as
    a non-empty removed path. *)
Lemma range_delm_byPath kvs : ∀ s p,
  rByPath (range_delm s kvs) !! p
  = if decide (p ≠ "" ∧ p ∈ kvs.*2) then None else rByPath s !! p.
Proof.
  induction kvs as [|[id q] kvs IH]; intros s p.
  - cbn. case_decide as H; [|done]. destruct H as [_ H]. by apply elem_of_nil in H.
  - rewrite range_delm_cons, IH, fmap_cons. cbn [resolve_entry rByPath snd].
    destruct (decide (p = q)) as [->|Hne].
    + destruct (decide (q = "")) as [->|Hq].
      * cbn. apply decide_ext. intuition congruence.
      * rewrite (decide_True (P := String.length q ≠ 0)) by (by apply length_ne_0).
        rewrite lookup_delete_eq.
        rewrite (decide_True (P := q ≠ "" ∧ q ∈ q :: kvs.*2))
          by (split; [done|left]).
        by case_decide.
    + assert (Hother : (if decide (String.length q ≠ 0)
                        then delete q (rByPath s) else rByPath s) !! p
                       = rByPath s !! p).
      { case_decide; [by rewrite lookup_delete_ne|done]. }
      rewrite Hother. apply decide_ext. rewrite elem_of_cons. intuition congruence.
Qed.

(** The maps after the loop do not depend on the order in which Go
    enumerates [delm]; [Removed] is the same up to the order. *)
Lemma range_delm_perm kvs kvs' byId byPath :
  kvs ≡ₚ kvs' →
  let r := range_delm (mkResolve byId byPath (replicate (length kvs) "") 0) kvs in
  let r' := range_delm (mkResolve byId byPath (replicate (length kvs') "") 0) kvs' in
  rById r = rById r' ∧ rByPath r = rByPath r' ∧ rRemoved r ≡ₚ rRemoved r'.
Proof.
  intros Hp r r'. subst r r'. split; [|split].
  - apply map_eq. intros k. rewrite !range_delm_byId.
    apply decide_ext. by rewrite Hp.
  - apply map_eq. intros p. rewrite !range_delm_byPath.
    apply decide_ext. by rewrite Hp.
  - pose proof (range_delm_removed kvs byId byPath []) as H1.
    pose proof (range_delm_removed kvs' byId byPath []) as H2.
    cbn [app length] in H1, H2. rewrite H1, H2. by rewrite Hp.
Qed.
End resolve.

Lemma elem_of_snd_map_to_list (m : gmap string string) (p : string) :
  p ∈ (map_to_list m).*2 ↔ ∃ k, m !! k = Some p.
Proof.
  split.
  - intros Hin. apply list_elem_of_fmap in Hin as [[k v] [-> Hin]].
    apply elem_of_map_to_list in Hin. eauto.
  - intros [k Hk]. apply list_elem_of_fmap. exists (k, p).
    split; [done|]. by apply elem_of_map_to_list.
Qed.

Lemma elem_of_fst_map_to_list (m : gmap string string) (k : string) :
  k ∈ (map_to_list m).*1 ↔ is_Some (m !! k).
Proof.
  split.
  - intros Hin. apply list_elem_of_fmap in Hin as [[k' v] [-> Hin]].
    apply elem_of_map_to_list in Hin. cbn. eauto.
  - intros [v Hv]. apply list_elem_of_fmap. exists (k, v).
    split; [done|]. by apply elem_of_map_to_list.
Qed.

(** [reconcile], in terms of the state [s] left by the first loop. *)
Lemma reconcile_eq byId byPath ents :
  let s := fetch_entries (mkLoop byId byPath [] [] ∅) ents in
  ∃ byId' byPath',
    reconcile byId byPath ents
      = (byId', byPath',
         mkChanges (lAdded s) (lUpdated s) (map_to_list (delm s)).*1)
    ∧ (∀ k, byId' !! k = if decide (is_Some (delm s !! k)) then None else lById s !! k)
    ∧ (∀ p, byPath' !! p
            = if decide (p ≠ "" ∧ p ∈ (map_to_list (delm s)).*2) then None
              else lByPath s !! p).
Proof.
  intros s. unfold reconcile. fold s.
  pose proof (range_delm_removed (map_to_list (delm s)) (lById s) (lByPath s) []) as H.
  cbn [app length] in H. rewrite length_map_to_list in H. rewrite H.
  eexists _, _. split; [reflexivity|]. split.
  - intros k. rewrite range_delm_byId. cbn [rById].
    apply decide_ext, elem_of_fst_map_to_list.
  - intros p. rewrite range_delm_byPath. cbn [rByPath]. reflexivity.
Qed.

(** ** The first loop of [fetch], case by case *)

Section fetch_entry_cases.
Context (s : loop_state) (ent : FolderEntry).


Lemma fetch_entry_tombstone_vacant :
  Tag ent = "deleted" → lByPath s !! PathLower ent = None →
  fetch_entry s ent = s.
Proof. intros Ht Hp. unfold fetch_entry. rewrite decide_True by done. by rewrite Hp. Qed.

Lemma fetch_entry_displace prev old :
  Tag ent ≠ "deleted" → lByPath s !! PathLower ent = Some prev →
  Id prev ≠ Id ent → lById s !! Id prev = Some old →
  fetch_entry s ent
  = mkLoop (<[Id ent := ent]> (lById s)) (<[PathLower ent := ent]> (lByPath s))
           (lAdded s) (lUpdated s ++ [Id ent]) (<[Id prev := ""]> (delm s)).
Proof.
  intros Ht Hp Hne Hold. unfold fetch_entry.
  rewrite decide_False by done. rewrite Hp. cbn zeta.
  rewrite decide_True by done. by rewrite Hold.
Qed.

Lemma fetch_entry_displace_unknown prev :
  Tag ent ≠ "deleted" → lByPath s !! PathLower ent = Some prev →
  Id prev ≠ Id ent → lById s !! Id prev = None →
  fetch_entry s ent
  = mkLoop (<[Id ent := ent]> (lById s)) (<[PathLower ent := ent]> (lByPath s))
           (lAdded s ++ [Id ent]) (lUpdated s) (delm s).
Proof.
  intros Ht Hp Hne Hold. unfold fetch_entry.
  rewrite decide_False by done. rewrite Hp. cbn zeta.
  rewrite decide_True by done. by rewrite Hold.
Qed.


(** The vacant-path case leaves [delm] as it is: the [delete] of the
    source sits under a test that is false here. *)
Lemma fetch_entry_add :
  Tag ent ≠ "deleted" → lByPath s !! PathLower ent = None →
  fetch_entry s ent
  = mkLoop (<[Id ent := ent]> (lById s)) (<[PathLower ent := ent]> (lByPath s))
           (lAdded s ++ [Id ent]) (lUpdated s) (delm s).
Proof.
  intros Ht Hp. unfold fetch_entry.
  rewrite decide_False by done. by rewrite Hp.
Qed.
End fetch_entry_cases.


Lemma fetch_entries_cons s ent ents :
  fetch_entries s (ent :: ents) = fetch_entries (fetch_entry s ent) ents.
Proof. reflexivity. Qed.

(** A single content row landing on the slot of another, known identity. *)
Lemma reconcile_displace byId byPath row prev old :
  Tag row ≠ "deleted" → byPath !! PathLower row = Some prev →
  Id prev ≠ Id row → byId !! Id prev = Some old →
  reconcile byId byPath [row]
  = (delete (Id prev) (<[Id row := row]> byId), <[PathLower row := row]> byPath,
     mkChanges [] [Id row] [Id prev]).
Proof.
  intros Ht Hp Hne Hold. unfold reconcile.
  rewrite fetch_entries_cons.
  rewrite (fetch_entry_displace _ _ prev old) by done.
  cbn [fetch_entries foldl delm lById lByPath lAdded lUpdated app].
  rewrite insert_empty, map_to_list_singleton, map_size_singleton.
  reflexivity.
Qed.

(** ** Rename with displacement *)

(** The store holds [id1] at "/x" and [id2] at "/y"; the batch is the single
    content row [id2] at "/x".  The delta is the one announced, [id1] leaves
    [EntriesById], but the slot "/y" keeps the previous entry of [id2]: the
    final store is not "exactly [id2] at /x". *)
Lemma rename_with_displacement_slot_kept :
  ¬ ((reconcile (<[ "id1" := id1_at_x ]> {[ "id2" := id2_at_y ]})
                (<[ "/x" := id1_at_x ]> {[ "/y" := id2_at_y ]}) [id2_at_x]).2
       = mkChanges [] ["id2"] ["id1"]
     ∧ (reconcile (<[ "id1" := id1_at_x ]> {[ "id2" := id2_at_y ]})
                  (<[ "/x" := id1_at_x ]> {[ "/y" := id2_at_y ]}) [id2_at_x]).1
       = ({[ "id2" := id2_at_x ]}, {[ "/x" := id2_at_x ]})).
Proof. vm_compute. intros [_ H]. discriminate H. Qed.

(** C3 (amended).  For a store holding exactly [e1] and [e2], of distinct
    identities and paths, the single content row [r] that carries the
    identity of [e2] at the path of [e1] yields [Updated = [Id e2]],
    [Removed = [Id e1]] and nothing [Added]; [EntriesById] then holds exactly
    [r]; [EntriesByPath] holds [r] at the path of [e1] and still holds [e2]
    at its old path, which is not vacated. *)
Theorem rename_with_displacement (e1 e2 r : FolderEntry) :
  Id e1 ≠ Id e2 → PathLower e1 ≠ PathLower e2 →
  Tag r ≠ "deleted" → Id r = Id e2 → PathLower r = PathLower e1 →
  let res := reconcile (<[Id e1 := e1]> {[Id e2 := e2]})
                       (<[PathLower e1 := e1]> {[PathLower e2 := e2]}) [r] in
  res.2 = mkChanges [] [Id e2] [Id e1]
  ∧ res.1.1 = {[Id e2 := r]}
  ∧ res.1.1 !! Id e1 = None
  ∧ res.1.2 = <[PathLower e1 := r]> {[PathLower e2 := e2]}
  ∧ res.1.2 !! PathLower e2 = Some e2.
Proof.
  intros Hid Hpath Htag Hrid Hrpath res. subst res.
  rewrite (reconcile_displace _ _ r e1 e1).
  - cbn [fst snd]. rewrite Hrid, Hrpath.
    assert (Hmap : delete (Id e1) (<[Id e2:=r]> (<[Id e1:=e1]> {[Id e2 := e2]}))
                   = ({[Id e2 := r]} : gmap string FolderEntry)).
    { apply map_eq. intros k.
      destruct (decide (k = Id e1)) as [->|H1].
      - rewrite lookup_delete_eq. by rewrite lookup_singleton_ne.
      - rewrite lookup_delete_ne by done.
        destruct (decide (k = Id e2)) as [->|H2].
        + by rewrite lookup_insert_eq, lookup_singleton_eq.
        + by rewrite !lookup_insert_ne, !lookup_singleton_ne. }
    rewrite Hmap. split; [done|]. split; [done|].
    split; [by rewrite lookup_singleton_ne|].
    rewrite insert_insert_eq. split; [done|].
    by rewrite lookup_insert_ne, lookup_singleton_eq.
  - done.
  - by rewrite Hrpath, lookup_insert_eq.
  - by rewrite Hrid.
  - by rewrite lookup_insert_eq.
Qed.

(** The instance of the specification's example. *)
Lemma rename_with_displacement_example :
  (reconcile (<[ "id1" := id1_at_x ]> {[ "id2" := id2_at_y ]})
             (<[ "/x" := id1_at_x ]> {[ "/y" := id2_at_y ]}) [id2_at_x]).2
    = mkChanges [] ["id2"] ["id1"]
  ∧ (reconcile (<[ "id1" := id1_at_x ]> {[ "id2" := id2_at_y ]})
               (<[ "/x" := id1_at_x ]> {[ "/y" := id2_at_y ]}) [id2_at_x]).1.1
    = {[ "id2" := id2_at_x ]}
  ∧ (reconcile (<[ "id1" := id1_at_x ]> {[ "id2" := id2_at_y ]})
               (<[ "/x" := id1_at_x ]> {[ "/y" := id2_at_y ]}) [id2_at_x]).1.1
      !! "id1" = None
  ∧ (reconcile (<[ "id1" := id1_at_x ]> {[ "id2" := id2_at_y ]})
               (<[ "/x" := id1_at_x ]> {[ "/y" := id2_at_y ]}) [id2_at_x]).1.2
    = <[ "/x" := id2_at_x ]> {[ "/y" := id2_at_y ]}
  ∧ (reconcile (<[ "id1" := id1_at_x ]> {[ "id2" := id2_at_y ]})
               (<[ "/x" := id1_at_x ]> {[ "/y" := id2_at_y ]}) [id2_at_x]).1.2
      !! "/y" = Some id2_at_y.
Proof.
  apply (rename_with_displacement id1_at_x id2_at_y id2_at_x); cbn; congruence.
Defined.

(** ** Coalescing of a deletion followed by a row of the same identity *)




(** ** One call of [fetch], in closed form *)

Lemma checkCanceled_eq w sc tr :
  checkCanceled (mkWorld w sc tr)
  = (Ret (cancel_seen w), mkWorld (after_check w) sc tr).
Proof.
  unfold checkCanceled, cancel_seen, after_check, bind, get_watcher, put_watcher, ret.
  cbn. destruct (canceled w); [done|].
  by destruct (chan_try_recv (cancelch w)) as [ch|].
Qed.

Lemma after_check_not_seen w : cancel_seen w = false → after_check w = w.
Proof.
  unfold cancel_seen, after_check. destruct (canceled w); [done|].
  by destruct (chan_try_recv (cancelch w)).
Qed.

Lemma exitch_after_check w : exitch (after_check w) = exitch w.
Proof.
  unfold after_check. destruct (canceled w); [done|].
  by destruct (chan_try_recv (cancelch w)).
Qed.

Lemma checkCanceledAndExit_eq w sc tr :
  checkCanceledAndExit (mkWorld w sc tr)
  = if cancel_seen w then exit_with true ErrCanceled (after_check w) sc tr
    else (Ret false, mkWorld w sc tr).
Proof.
  unfold checkCanceledAndExit, bind. rewrite checkCanceled_eq.
  destruct (cancel_seen w) eqn:Hseen.
  - unfold exit_with, exit_send, emit, ret. cbn.
    by destruct (exitch (after_check w)).
  - by rewrite after_check_not_seen.
Qed.

Lemma checkResult_eq r err w sc tr :
  checkResult r err (mkWorld w sc tr)
  = match err with
    | Some e => exit_with false e w sc tr
    | None =>
        if cancel_seen w then exit_with false ErrCanceled (after_check w) sc tr
        else (Ret true, mkWorld (set_cursor w (ListFolderResult.Cursor r)
                                            (ListFolderResult.HasMore r)) sc tr)
    end.
Proof.
  unfold checkResult. destruct err as [e|].
  - unfold bind, exit_with, exit_send, emit, ret. cbn. by destruct (exitch w).
  - unfold bind. rewrite checkCanceledAndExit_eq.
    destruct (cancel_seen w); [|done].
    unfold exit_with. by destruct (exitch (after_check w)).
Qed.

Lemma fetch_blocked w tr : fetch (mkWorld w [] tr) = (Blocked, mkWorld w [] tr).
Proof.
  unfold fetch, fetchInitial, bind, get_watcher, Send_list, RPC. cbn.
  by destruct (decide (Cursor w = "")).
Qed.

Lemma fetch_eq w x sc tr :
  fetch (mkWorld w (x :: sc) tr)
  = let w1 := cancels (cancel_calls x) w in
    let err := rpc_error <$> rpc_err x in
    let tr1 := tr ++ [EvRPC (fetch_request w) err] in
    match err with
    | Some e => exit_with false e w1 sc tr1
    | None =>
        if cancel_seen w1 then exit_with false ErrCanceled (after_check w1) sc tr1
        else
          let w2 := set_cursor w1 (ListFolderResult.Cursor (list_res x))
                                  (ListFolderResult.HasMore (list_res x)) in
          let res := apply_listing (bool_decide (Cursor w = "")) w2
                                   (ListFolderResult.Entries (list_res x)) in
          (Ret true, mkWorld res.1 sc (tr1 ++ res.2))
    end.
Proof.
  cbn zeta. unfold fetch, fetch_request, apply_listing.
  unfold bind at 1, get_watcher at 1. cbn [watcher].
  destruct (decide (Cursor w = "")) as [Hc|Hc].
  - rewrite (bool_decide_eq_true_2 (Cursor w = "")) by done.
    unfold fetchInitial, bind at 1 2 3, get_watcher, Send_list, bind at 1, RPC, ret.
    cbn [watcher script trace]. rewrite checkResult_eq.
    destruct (rpc_err x) as [f|]; cbn [fmap option_fmap option_map].
    { unfold exit_with. by destruct (exitch _). }
    destruct (cancel_seen _).
    { unfold exit_with. by destruct (exitch _). }
    cbn [negb]. unfold bind, get_watcher, put_watcher, emit, ret. cbn [watcher script trace].
    destruct (0 <? length _)%nat; cbn -[reconcile_initial].
    + by destruct (reconcile_initial _ _ _) as [[? ?] ?].
    + by rewrite app_nil_r.
  - rewrite (bool_decide_eq_false_2 (Cursor w = "")) by done.
    unfold bind at 1 2, Send_list, bind at 1, RPC, ret.
    cbn [watcher script trace]. rewrite checkResult_eq.
    destruct (rpc_err x) as [f|]; cbn [fmap option_fmap option_map].
    { unfold exit_with. by destruct (exitch _). }
    destruct (cancel_seen _).
    { unfold exit_with. by destruct (exitch _). }
    cbn [negb]. destruct (length _ =? 0)%nat.
    + cbn. by rewrite app_nil_r.
    + unfold bind, get_watcher, put_watcher, emit, ret. cbn [watcher script trace].
      cbn [set_cursor EntriesById EntriesByPath].
      destruct (reconcile _ _ _) as [[byId' byPath'] changes]. cbn [fst snd].
      destruct (has_changes changes); cbn; [done|]. by rewrite app_nil_r.
Qed.

(** ** What the first loop stores and classifies *)

Lemma fetch_entry_maps s ent :
  lById (fetch_entry s ent)
    = (if decide (Tag ent = "deleted") then lById s else <[Id ent := ent]> (lById s))
  ∧ lByPath (fetch_entry s ent)
    = (if decide (Tag ent = "deleted") then lByPath s
       else <[PathLower ent := ent]> (lByPath s)).
Proof.
  unfold fetch_entry. destruct (decide (Tag ent = "deleted")).
  - by destruct (lByPath s !! PathLower ent).
  - destruct (lByPath s !! PathLower ent) as [prev|]; [|done].
    destruct (decide (Id prev ≠ Id ent)); [|done].
    by destruct (lById s !! Id prev).
Qed.

(** Every content row goes to exactly one of [Added] and [Updated]; a
    tombstone row goes to neither. *)
Lemma fetch_entry_buckets s ent :
  lAdded (fetch_entry s ent) ++ lUpdated (fetch_entry s ent)
  ≡ₚ (lAdded s ++ lUpdated s) ++ (if decide (is_content ent) then [Id ent] else []).
Proof.
  unfold fetch_entry, is_content. destruct (decide (Tag ent = "deleted")) as [Ht|Ht].
  - rewrite decide_False by (by intros H). rewrite app_nil_r.
    by destruct (lByPath s !! PathLower ent).
  - rewrite decide_True by done.
    destruct (lByPath s !! PathLower ent) as [prev|]; cbn.
    + destruct (decide (Id prev ≠ Id ent)); cbn.
      * destruct (lById s !! Id prev); cbn.
        -- by rewrite app_assoc.
        -- rewrite <- !app_assoc. apply Permutation_app_head, Permutation_app_comm.
      * by rewrite app_assoc.
    + rewrite <- !app_assoc. apply Permutation_app_head, Permutation_app_comm.
Qed.

Lemma fetch_entries_buckets ents : ∀ s,
  lAdded (fetch_entries s ents) ++ lUpdated (fetch_entries s ents)
  ≡ₚ (lAdded s ++ lUpdated s) ++ (Id <$> filter is_content ents).
Proof.
  induction ents as [|ent ents IH]; intros s.
  - cbn. by rewrite app_nil_r.
  - rewrite fetch_entries_cons, IH, fetch_entry_buckets.
    rewrite filter_cons. destruct (decide (is_content ent)).
    + rewrite fmap_cons. by rewrite <- app_assoc.
    + by rewrite app_nil_r.
Qed.

(** An entry found in a map after the first loop was there before, under
    the same key, or is a content row of the batch stored under its own
    key. *)
Lemma fetch_entries_stored ents : ∀ s,
  (∀ k e, lById (fetch_entries s ents) !! k = Some e →
          lById s !! k = Some e ∨ (e ∈ ents ∧ is_content e ∧ Id e = k))
  ∧ (∀ p e, lByPath (fetch_entries s ents) !! p = Some e →
            lByPath s !! p = Some e ∨ (e ∈ ents ∧ is_content e ∧ PathLower e = p)).
Proof.
  induction ents as [|ent ents IH]; intros s.
  - cbn. eauto.
  - rewrite fetch_entries_cons.
    destruct (IH (fetch_entry s ent)) as [IHid IHpath].
    destruct (fetch_entry_maps s ent) as [Hid Hpath].
    split.
    + intros k e Hk. apply IHid in Hk as [Hk|(Hin & Hc & Hkey)].
      * rewrite Hid in Hk. case_decide; [by left|].
        destruct (decide (Id ent = k)) as [<-|Hne].
        -- rewrite lookup_insert_eq in Hk. injection Hk as <-.
           right. split; [left|done].
        -- rewrite lookup_insert_ne in Hk by done. by left.
      * right. split; [by right|done].
    + intros p e Hp. apply IHpath in Hp as [Hp|(Hin & Hc & Hkey)].
      * rewrite Hpath in Hp. case_decide; [by left|].
        destruct (decide (PathLower ent = p)) as [<-|Hne].
        -- rewrite lookup_insert_eq in Hp. injection Hp as <-.
           right. split; [left|done].
        -- rewrite lookup_insert_ne in Hp by done. by left.
      * right. split; [by right|done].
Qed.

(** The second loop only deletes. *)
Lemma reconcile_stored byId byPath ents :
  (∀ k e, (reconcile byId byPath ents).1.1 !! k = Some e →
          byId !! k = Some e ∨ (e ∈ ents ∧ is_content e ∧ Id e = k))
  ∧ (∀ p e, (reconcile byId byPath ents).1.2 !! p = Some e →
            byPath !! p = Some e ∨ (e ∈ ents ∧ is_content e ∧ PathLower e = p)).
Proof.
  destruct (reconcile_eq byId byPath ents) as (byId' & byPath' & Heq & HbyId & HbyPath).
  destruct (fetch_entries_stored ents (mkLoop byId byPath [] [] ∅)) as [Hid Hpath].
  rewrite Heq. cbn [fst snd]. split.
  - intros k e Hk. rewrite HbyId in Hk. case_decide; [done|]. by apply Hid in Hk.
  - intros p e Hp. rewrite HbyPath in Hp. case_decide; [done|]. by apply Hpath in Hp.
Qed.

Lemma reconcile_changes byId byPath ents :
  let c := (reconcile byId byPath ents).2 in
  NoDup (Removed c)
  ∧ Added c ++ Updated c ≡ₚ Id <$> filter is_content ents.
Proof.
  destruct (reconcile_eq byId byPath ents) as (byId' & byPath' & Heq & _ & _).
  cbn zeta. rewrite Heq. cbn [snd Added Updated Removed]. split.
  - apply NoDup_fst_map_to_list.
  - by rewrite fetch_entries_buckets.
Qed.

(** ** The loop of [fetchInitial] *)

Lemma reconcile_initial_eq byId byPath ents :
  reconcile_initial byId byPath ents
  = (foldl (λ m e, <[Id e := e]> m) byId ents,
     foldl (λ m e, <[PathLower e := e]> m) byPath ents,
     mkChanges (Id <$> ents) [] []).
Proof.
  unfold reconcile_initial.
  assert (H : ∀ ents byId byPath (filled : list string),
             foldl initial_entry
               (mkInitial byId byPath (filled ++ replicate (length ents) "")
                          (length filled)) ents
             = mkInitial (foldl (λ m e, <[Id e := e]> m) byId ents)
                         (foldl (λ m e, <[PathLower e := e]> m) byPath ents)
                         (filled ++ (Id <$> ents)) (length filled + length ents)).
  { clear. induction ents as [|e ents IH]; intros byId byPath filled.
    - cbn. by rewrite Nat.add_0_r.
    - cbn [foldl length replicate]. unfold initial_entry at 2.
      cbn [iById iByPath iAdded iIdx].
      rewrite insert_app_r_alt by lia. rewrite Nat.sub_diag.
      change (<[0:=Id e]> ("" :: replicate (length ents) ""))
        with ([Id e] ++ replicate (length ents) "").
      rewrite app_assoc.
      replace (S (length filled)) with (length (filled ++ [Id e]))
        by (rewrite length_app; simpl; lia).
      rewrite IH. rewrite <- app_assoc, length_app. cbn [length app fmap list_fmap].
      f_equal. lia. }
  specialize (H ents byId byPath []). cbn [app length] in H. by rewrite H.
Qed.

(** ** One iteration of [waitForChanges] and of the loops of [Run] *)

Lemma waitForChanges_0 σ : waitForChanges 0 σ = (OutOfFuel, σ).
Proof. reflexivity. Qed.

Lemma waitForChanges_blocked fuel w tr :
  waitForChanges (S fuel) (mkWorld w [] tr) = (Blocked, mkWorld w [] tr).
Proof. reflexivity. Qed.

Lemma waitForChanges_eq fuel w x sc tr :
  waitForChanges (S fuel) (mkWorld w (x :: sc) tr)
  = let w1 := cancels (cancel_calls x) w in
    let err := rpc_error <$> rpc_err x in
    let tr1 := tr ++ [EvRPC (ListFolderLongpollReq (Cursor w) 30) err] in
    match err with
    | Some e => exit_with false e w1 sc tr1
    | None =>
        if cancel_seen w1 then exit_with false ErrCanceled (after_check w1) sc tr1
        else
          let tr2 := tr1 ++ sleep_events (poll_res x) in
          if Changes (poll_res x)
          then (Ret true, mkWorld (set_hasMore w1 true) sc tr2)
          else waitForChanges fuel (mkWorld w1 sc tr2)
    end.
Proof.
  cbn zeta. cbn [waitForChanges].
  unfold bind at 1 2, get_watcher at 1, Send_longpoll, bind at 1, RPC, ret.
  cbn [watcher script trace].
  destruct (rpc_err x) as [f|]; cbn [fmap option_fmap option_map].
  { unfold bind, exit_with, exit_send, emit, ret. cbn. by destruct (exitch _). }
  unfold bind at 1. rewrite checkCanceledAndExit_eq.
  destruct (cancel_seen _).
  { unfold exit_with. by destruct (exitch _). }
  unfold sleep_events, bind, emit, get_watcher, put_watcher, ret.
  destruct (0 <? Backoff (poll_res x))%N; cbn [watcher script trace];
    destruct (Changes (poll_res x)); rewrite ?app_nil_r; reflexivity.
Qed.

Lemma fetch_loop_eq fuel σ :
  fetch_loop (S fuel) σ
  = match fetch σ with
    | (Ret true, σ') =>
        if hasMore (watcher σ') then fetch_loop fuel σ' else (Ret true, σ')
    | (Ret false, σ') => (Ret false, σ')
    | (Blocked, σ') => (Blocked, σ')
    | (OutOfFuel, σ') => (OutOfFuel, σ')
    end.
Proof.
  cbn [fetch_loop]. unfold bind at 1.
  destruct (fetch σ) as [[[|]| |] σ']; try reflexivity.
  cbn [negb]. unfold bind, get_watcher. by destruct (hasMore (watcher σ')).
Qed.

Lemma run_loop_eq fuel inner σ :
  run_loop (S fuel) inner σ
  = match fetch_loop inner σ with
    | (Ret true, σ1) =>
        match waitForChanges inner σ1 with
        | (Ret true, σ2) => run_loop fuel inner σ2
        | (Ret false, σ2) => (Ret tt, σ2)
        | (Blocked, σ2) => (Blocked, σ2)
        | (OutOfFuel, σ2) => (OutOfFuel, σ2)
        end
    | (Ret false, σ1) => (Ret tt, σ1)
    | (Blocked, σ1) => (Blocked, σ1)
    | (OutOfFuel, σ1) => (OutOfFuel, σ1)
    end.
Proof.
  cbn [run_loop]. unfold bind at 1.
  destruct (fetch_loop inner σ) as [[[|]| |] σ1]; try reflexivity.
  cbn [negb]. unfold bind.
  by destruct (waitForChanges inner σ1) as [[[|]| |] σ2].
Qed.

(** ** Frame: what the control code leaves untouched *)

Lemma cancels_frame n : ∀ w,
  EntriesById (cancels n w) = EntriesById w
  ∧ EntriesByPath (cancels n w) = EntriesByPath w
  ∧ Cursor (cancels n w) = Cursor w
  ∧ hasMore (cancels n w) = hasMore w
  ∧ exitch (cancels n w) = exitch w
  ∧ canceled (cancels n w) = canceled w.
Proof.
  induction n as [|n IH]; intros w; [done|].
  cbn [cancels]. unfold Cancel.
  destruct (chan_send (cancelch w)) as [ch|]; [|apply IH].
  destruct (IH (set_cancel w (Some ch) (canceled w))) as (H1 & H2 & H3 & H4 & H5 & H6).
  by rewrite H1, H2, H3, H4, H5, H6.
Qed.

Lemma after_check_frame w :
  EntriesById (after_check w) = EntriesById w
  ∧ EntriesByPath (after_check w) = EntriesByPath w
  ∧ Cursor (after_check w) = Cursor w
  ∧ hasMore (after_check w) = hasMore w.
Proof.
  unfold after_check. destruct (canceled w); [done|].
  by destruct (chan_try_recv (cancelch w)).
Qed.

(** ** The shape of the trace of the run loop *)

Lemma shape_app stopped t1 t2 : quiet t1 → shape stopped t2 → shape stopped (t1 ++ t2).
Proof.
  intros H1 H2. destruct stopped; cbn in *.
  - destruct H2 as (t0 & req & oe & -> & Hq).
    exists (t1 ++ t0), req, oe. split; [by rewrite app_assoc|].
    by apply Forall_app.
  - by apply Forall_app.
Qed.

Lemma apply_listing_post initial w ents :
  exitch (apply_listing initial w ents).1 = exitch w
  ∧ quiet (apply_listing initial w ents).2
  ∧ sourced (apply_listing initial w ents).2.
Proof.
  unfold apply_listing, quiet, sourced. destruct initial.
  - destruct (0 <? length ents)%nat; cbn; repeat constructor.
  - destruct (length ents =? 0)%nat; cbn; [repeat constructor|].
    destruct (has_changes _); repeat constructor.
Qed.

Lemma exit_with_post {A} (stop : A → bool) (a : A) oe req w0 w x sc tr :
  is_Some (exitch w) → exitch w = exitch w0 → stop a = true →
  sourced_event (EvRPC req oe) →
  run_post stop (mkWorld w0 (x :: sc) tr)
           (exit_with a (default ErrCanceled oe) w sc (tr ++ [EvRPC req oe])).
Proof.
  intros [ch Hch] Hex Hstop Hsrc. unfold exit_with. rewrite Hch.
  unfold run_post. cbn [fst snd watcher script trace length].
  split; [by rewrite <- Hex|]. split; [lia|]. split; [intros; lia|].
  exists [EvRPC req oe; EvExit (default ErrCanceled oe)].
  split; [by rewrite <- app_assoc|]. split.
  - repeat constructor. exact Hsrc.
  - rewrite Hstop. exists [], req, oe. split; [done|constructor].
Qed.

Lemma exit_with_fuel {A} (a : A) e w sc tr :
  (exit_with a e w sc tr).1 ≠ OutOfFuel.
Proof. unfold exit_with. by destruct (exitch w). Qed.

Lemma fetch_post σ :
  is_Some (exitch (watcher σ)) →
  (fetch σ).1 ≠ OutOfFuel ∧ run_post negb σ (fetch σ).
Proof.
  destruct σ as [w [|x sc] tr]; cbn [watcher]; intros Hex.
  { rewrite fetch_blocked. split; [done|]. unfold run_post. cbn.
    split; [done|]. split; [lia|]. split; [done|].
    exists []. rewrite app_nil_r. repeat constructor. }
  rewrite fetch_eq. cbn zeta.
  destruct (cancels_frame (cancel_calls x) w) as (_ & _ & _ & _ & Hex1 & _).
  destruct (rpc_err x) as [f|] eqn:Hf; cbn [fmap option_fmap option_map].
  { split; [apply exit_with_fuel|].
    apply (exit_with_post negb false (Some (rpc_error f))); try done.
    - by rewrite Hex1.
    - cbn. eauto. }
  destruct (cancel_seen _).
  { split; [apply exit_with_fuel|].
    apply (exit_with_post negb false None); try done.
    - by rewrite exitch_after_check, Hex1.
    - by rewrite exitch_after_check. }
  split; [done|].
  match goal with |- context [apply_listing ?i ?w2 ?ents] =>
    destruct (apply_listing_post i w2 ents) as (Hex2 & Hq & Hs) end.
  unfold run_post. cbn [fst snd watcher script trace length negb shape].
  split; [by rewrite Hex2|]. split; [lia|]. split; [intros; lia|].
  eexists. split; [by rewrite <- app_assoc|]. split.
  - apply Forall_app. split; [repeat constructor|done].
  - apply Forall_app. split; [repeat constructor|done].
Qed.

Lemma run_post_refl {A} (stop : A → bool) (o : outcome A) σ :
  (∀ a, o ≠ Ret a) → run_post stop σ (o, σ).
Proof.
  intros Ho. unfold run_post. cbn [fst snd].
  split; [done|]. split; [lia|]. split; [intros a Ha; by destruct (Ho a)|].
  exists []. rewrite app_nil_r. split; [done|]. split; [constructor|].
  destruct o as [a| |]; [by destruct (Ho a)|constructor|constructor].
Qed.

Lemma run_post_step {A} (stop : A → bool) (a : A) w w1 x sc tr t :
  exitch w1 = exitch w → quiet t → sourced t → stop a = false →
  run_post stop (mkWorld w (x :: sc) tr) (Ret a, mkWorld w1 sc (tr ++ t)).
Proof.
  intros Hex Hq Hs Hstop. unfold run_post. cbn [fst snd watcher script trace length].
  split; [done|]. split; [lia|]. split; [intros; lia|].
  exists t. rewrite Hstop. done.
Qed.

Lemma run_post_trans {A B} (stop1 : A → bool) (stop2 : B → bool) σ a σ1
    (r : outcome B * world) :
  run_post stop1 σ (Ret a, σ1) → stop1 a = false → run_post stop2 σ1 r →
  run_post stop2 σ r.
Proof.
  intros (Hex1 & Hlen1 & Hlt1 & t1 & Ht1 & Hs1 & Hshape1) Hstop
         (Hex2 & Hlen2 & Hlt2 & t2 & Ht2 & Hs2 & Hshape2).
  cbn [fst snd] in *. rewrite Hstop in Hshape1. cbn [shape] in Hshape1.
  specialize (Hlt1 a eq_refl Hstop).
  unfold run_post. split; [congruence|]. split; [lia|].
  split; [intros b Hb Hsb; specialize (Hlt2 b Hb Hsb); lia|].
  exists (t1 ++ t2). split; [by rewrite Ht2, Ht1, app_assoc|].
  split; [by apply Forall_app|].
  destruct r.1 as [b| |].
  - by apply shape_app.
  - by apply (shape_app false).
  - by apply (shape_app false).
Qed.

Lemma run_post_exitch {A} (stop : A → bool) σ (o : outcome A) σ' :
  run_post stop σ (o, σ') → is_Some (exitch (watcher σ)) →
  is_Some (exitch (watcher σ')).
Proof. intros (He & _) H. cbn [snd] in He. by rewrite He. Qed.

Lemma run_post_consumed {A} (stop : A → bool) σ (a : A) σ' :
  run_post stop σ (Ret a, σ') → stop a = false →
  (length (script σ') < length (script σ))%nat.
Proof. intros (_ & _ & Hlt & _) Hs. exact (Hlt a eq_refl Hs). Qed.

Lemma waitForChanges_post fuel : ∀ σ,
  is_Some (exitch (watcher σ)) →
  ((length (script σ) < fuel)%nat → (waitForChanges fuel σ).1 ≠ OutOfFuel)
  ∧ run_post negb σ (waitForChanges fuel σ).
Proof.
  induction fuel as [|fuel IH]; intros [w sc tr]; cbn [watcher script]; intros Hex.
  { rewrite waitForChanges_0. split; [lia|]. by apply run_post_refl. }
  destruct sc as [|x sc].
  { rewrite waitForChanges_blocked. split; [done|]. by apply run_post_refl. }
  rewrite waitForChanges_eq. cbn zeta.
  destruct (cancels_frame (cancel_calls x) w) as (_ & _ & _ & _ & Hex1 & _).
  destruct (rpc_err x) as [f|] eqn:Hf; cbn [fmap option_fmap option_map].
  { split; [intros _; apply exit_with_fuel|].
    apply (exit_with_post negb false (Some (rpc_error f))); try done.
    - by rewrite Hex1.
    - cbn. eauto. }
  destruct (cancel_seen _).
  { split; [intros _; apply exit_with_fuel|].
    apply (exit_with_post negb false None); try done.
    - by rewrite exitch_after_check, Hex1.
    - by rewrite exitch_after_check. }
  assert (Hq : quiet ([EvRPC (ListFolderLongpollReq (Cursor w) 30) None]
                      ++ sleep_events (poll_res x))).
  { unfold sleep_events. destruct (0 <? _)%N; repeat constructor. }
  assert (Hs : sourced ([EvRPC (ListFolderLongpollReq (Cursor w) 30) None]
                        ++ sleep_events (poll_res x))).
  { unfold sleep_events. destruct (0 <? _)%N; repeat constructor. }
  rewrite <- app_assoc.
  destruct (Changes (poll_res x)).
  - split; [done|]. by apply run_post_step.
  - match goal with |- context [waitForChanges fuel ?σ1] =>
      destruct (IH σ1) as [IHfuel IHpost]; [cbn; by rewrite Hex1|] end.
    split; [cbn [length script] in *; intros; apply IHfuel; lia|].
    eapply (run_post_trans negb negb _ true); [|done|exact IHpost].
    by apply run_post_step.
Qed.

Lemma fetch_loop_post fuel : ∀ σ,
  is_Some (exitch (watcher σ)) →
  ((length (script σ) < fuel)%nat → (fetch_loop fuel σ).1 ≠ OutOfFuel)
  ∧ run_post negb σ (fetch_loop fuel σ).
Proof.
  induction fuel as [|fuel IH]; intros σ Hex.
  { split; [lia|]. by apply run_post_refl. }
  rewrite fetch_loop_eq.
  destruct (fetch_post σ Hex) as [Hfuel Hpost].
  destruct (fetch σ) as [[[|]| |] σ'] eqn:Hfetch; cbn [fst] in Hfuel; try done.
  destruct (hasMore (watcher σ')); [|done].
  pose proof (run_post_exitch _ _ _ _ Hpost Hex) as Hex'.
  pose proof (run_post_consumed _ _ _ _ Hpost eq_refl) as Hlt.
  destruct (IH σ' Hex') as [IHfuel IHpost].
  split.
  - intros Hlen. apply IHfuel. lia.
  - by eapply (run_post_trans negb negb _ true).
Qed.

Lemma run_post_stop {A} (stop : A → bool) (a : A) σ σ' :
  stop a = true → run_post stop σ (Ret a, σ') → run_post always_stop σ (Ret tt, σ').
Proof.
  intros Hstop (Hex & Hlen & Hlt & t & Ht & Hs & Hshape). cbn [fst snd] in *.
  rewrite Hstop in Hshape. unfold run_post. cbn [fst snd].
  split; [done|]. split; [done|]. split; [done|]. by exists t.
Qed.

Lemma run_post_other {A B} (stop : A → bool) (stop' : B → bool)
    (o : outcome A) (o' : outcome B) σ σ' :
  (∀ a, o ≠ Ret a) → (∀ b, o' ≠ Ret b) →
  run_post stop σ (o, σ') → run_post stop' σ (o', σ').
Proof.
  intros Ho Ho' (Hex & Hlen & Hlt & t & Ht & Hs & Hshape). cbn [fst snd] in *.
  unfold run_post. cbn [fst snd].
  split; [done|]. split; [done|].
  split; [intros b Hb; by destruct (Ho' b)|].
  exists t. split; [done|]. split; [done|].
  destruct o as [a| |]; [by destruct (Ho a)| |];
    (destruct o' as [b| |]; [by destruct (Ho' b)|done|done]).
Qed.

Lemma run_loop_post inner fuel : ∀ σ,
  is_Some (exitch (watcher σ)) →
  ((length (script σ) < inner)%nat → (length (script σ) < fuel)%nat →
   (run_loop fuel inner σ).1 ≠ OutOfFuel)
  ∧ run_post always_stop σ (run_loop fuel inner σ).
Proof.
  induction fuel as [|fuel IH]; intros σ Hex.
  { split; [lia|]. by apply run_post_refl. }
  rewrite run_loop_eq.
  destruct (fetch_loop_post inner σ Hex) as [Hfuel1 Hpost1].
  destruct (fetch_loop inner σ) as [[[|]| |] σ1] eqn:Hfl; cbn [fst] in Hfuel1.
  - pose proof (run_post_exitch _ _ _ _ Hpost1 Hex) as Hex1.
    pose proof (run_post_consumed _ _ _ _ Hpost1 eq_refl) as Hlt1.
    destruct (waitForChanges_post inner σ1 Hex1) as [Hfuel2 Hpost2].
    destruct (waitForChanges inner σ1) as [[[|]| |] σ2] eqn:Hwf; cbn [fst] in Hfuel2.
    + pose proof (run_post_exitch _ _ _ _ Hpost2 Hex1) as Hex2.
      pose proof (run_post_consumed _ _ _ _ Hpost2 eq_refl) as Hlt2.
      destruct (IH σ2 Hex2) as [IHfuel IHpost].
      split; [intros; apply IHfuel; lia|].
      eapply (run_post_trans negb always_stop _ true); [exact Hpost1|done|].
      by eapply (run_post_trans negb always_stop _ true).
    + split; [done|].
      eapply (run_post_trans negb always_stop _ true); [exact Hpost1|done|].
      by apply (run_post_stop negb false).
    + split; [done|].
      eapply (run_post_trans negb always_stop _ true); [exact Hpost1|done|].
      by apply (run_post_other negb always_stop Blocked).
    + split; [intros; exfalso; apply Hfuel2; [lia|done]|].
      eapply (run_post_trans negb always_stop _ true); [exact Hpost1|done|].
      by apply (run_post_other negb always_stop OutOfFuel).
  - split; [done|]. by apply (run_post_stop negb false).
  - split; [done|]. by apply (run_post_other negb always_stop Blocked).
  - split; [intros; exfalso; by apply Hfuel1|].
    by apply (run_post_other negb always_stop OutOfFuel).
Qed.

(** The fuel of [Run] is enough: it returns, or it is blocked. *)
Lemma Run_fuel_enough σ :
  is_Some (exitch (watcher σ)) → (Run σ).1 ≠ OutOfFuel.
Proof.
  intros Hex. unfold Run.
  by apply (run_loop_post (S (length (script σ))) (S (length (script σ))) σ Hex); lia.
Qed.

Lemma Run_post σ :
  is_Some (exitch (watcher σ)) → run_post always_stop σ (Run σ).
Proof. intros Hex. unfold Run. by apply run_loop_post. Qed.

(** ** Transport errors are terminal *)

Lemma exits_quiet t : quiet t → exits t = [].
Proof.
  induction 1 as [|ev t Hev _ IH]; [done|].
  unfold exits in *. cbn. rewrite IH. by destruct ev.
Qed.

Lemma rpc_error_not_canceled f : rpc_error f ≠ ErrCanceled.
Proof. by destruct f. Qed.

(** A failed round trip occurs in a trace of the shape [exit_suffix] only as
    its last round trip. *)
Lemma exit_suffix_failed t1 req e t2 :
  exit_suffix (t1 ++ EvRPC req (Some e) :: t2) →
  quiet t1 ∧ t2 = [EvExit e].
Proof.
  intros (t0 & req' & oe & Heq & Hq).
  assert (Hlook : (t0 ++ [EvRPC req' oe; EvExit (default ErrCanceled oe)])
                    !! length t1 = Some (EvRPC req (Some e))).
  { rewrite <- Heq. by rewrite list_lookup_middle. }
  destruct (decide (length t1 < length t0)%nat) as [Hlt|Hge].
  { rewrite lookup_app_l in Hlook by done.
    apply list_elem_of_lookup_2 in Hlook.
    unfold quiet in Hq. rewrite Forall_forall in Hq. by apply Hq in Hlook. }
  rewrite lookup_app_r in Hlook by lia.
  destruct (length t1 - length t0)%nat as [|[|n]] eqn:Hd; cbn in Hlook; try done.
  assert (Hlen : length t1 = length t0) by lia.
  apply app_inj_1 in Heq as [-> Heq]; [|done].
  injection Heq as Hreq Hoe Ht2. subst oe t2. done.
Qed.

(** C7.  Whenever a round trip of the run loop returns a transport error
    [e] (a request of [fetch] or of [waitForChanges]; the watcher has an exit
    channel), [Run] returns; the only events after the failed round trip are
    the delivery of [e] itself on the exit channel, so no request follows and
    none is retried; [e] is the only error ever delivered; and [e] is not
    [ErrCanceled]. *)
Theorem transport_error_is_terminal (σ : world) t1 req e t2 :
  is_Some (exitch (watcher σ)) →
  trace (Run σ).2 = trace σ ++ t1 ++ EvRPC req (Some e) :: t2 →
  (Run σ).1 = Ret tt
  ∧ t2 = [EvExit e]
  ∧ quiet t1
  ∧ exits (t1 ++ EvRPC req (Some e) :: t2) = [e]
  ∧ e ≠ ErrCanceled.
Proof.
  intros Hex Htr.
  destruct (Run_post σ Hex) as (_ & _ & _ & t & Ht & Hs & Hshape).
  rewrite Ht in Htr. apply app_inv_head in Htr. subst t.
  assert (Hin : EvRPC req (Some e) ∈ t1 ++ EvRPC req (Some e) :: t2).
  { apply elem_of_app. right. left. }
  assert (Hne : e ≠ ErrCanceled).
  { unfold sourced in Hs. rewrite Forall_forall in Hs.
    destruct (Hs _ Hin) as [f ->]. apply rpc_error_not_canceled. }
  assert (Hnq : ¬ quiet (t1 ++ EvRPC req (Some e) :: t2)).
  { intros Hq. unfold quiet in Hq. rewrite Forall_forall in Hq. by apply Hq in Hin. }
  destruct (Run σ).1 as [[]| |]; try done.
  cbn [always_stop shape] in Hshape.
  apply exit_suffix_failed in Hshape as [Hq ->].
  split; [done|]. split; [done|]. split; [done|]. split; [|done].
  unfold exits. rewrite omap_app. fold (exits t1). by rewrite exits_quiet.
Qed.

Lemma fresh_watcher_new :
  NewFolderWatcher (Some (mkClient "token")) "/photos" DirModeShallow
  = Some fresh_watcher.
Proof. reflexivity. Qed.

(** An initial listing, a long-poll that reports changes, and an
    incremental listing that fails with a status error. *)
Lemma transport_error_is_terminal_example :
  (Run (mkWorld fresh_watcher
          [listing [id1_at_x] "c1" false; polled true 0;
           failing (CheckRspFailed "?: 500 Internal Server Error")] [])).1
    = Ret tt
  ∧ [EvExit (errorString "?: 500 Internal Server Error")]
    = [EvExit (errorString "?: 500 Internal Server Error")]
  ∧ quiet [EvRPC (ListFolderReq "/photos" false false false false) None;
           EvChange (mkChanges ["id1"] [] []);
           EvRPC (ListFolderLongpollReq "c1" 30) None]
  ∧ exits ([EvRPC (ListFolderReq "/photos" false false false false) None;
            EvChange (mkChanges ["id1"] [] []);
            EvRPC (ListFolderLongpollReq "c1" 30) None]
           ++ EvRPC (ListFolderContReq "c1")
                    (Some (errorString "?: 500 Internal Server Error"))
              :: [EvExit (errorString "?: 500 Internal Server Error")])
    = [errorString "?: 500 Internal Server Error"]
  ∧ errorString "?: 500 Internal Server Error" ≠ ErrCanceled.
Proof.
  apply (transport_error_is_terminal
           (mkWorld fresh_watcher
              [listing [id1_at_x] "c1" false; polled true 0;
               failing (CheckRspFailed "?: 500 Internal Server Error")] [])).
  - cbn. eauto.
  - vm_compute. reflexivity.
Defined.

(** ** The keys of the Entry Store *)

Lemma foldl_insert_lookup (f : FolderEntry → string) ents :
  ∀ (m : gmap string FolderEntry) k e,
    foldl (λ m e, <[f e := e]> m) m ents !! k = Some e →
    m !! k = Some e ∨ (e ∈ ents ∧ f e = k).
Proof.
  induction ents as [|a ents IH]; intros m k e Hk; [by left|].
  cbn [foldl] in Hk. apply IH in Hk as [Hk|[Hin Hf]].
  - destruct (decide (f a = k)) as [<-|Hne].
    + rewrite lookup_insert_eq in Hk. injection Hk as <-. right. split; [left|done].
    + rewrite lookup_insert_ne in Hk by done. by left.
  - right. split; [by right|done].
Qed.

Lemma reconcile_initial_keyed byId byPath ents :
  keyed byId byPath →
  keyed (reconcile_initial byId byPath ents).1.1 (reconcile_initial byId byPath ents).1.2.
Proof.
  intros [Hid Hpath]. rewrite reconcile_initial_eq. cbn [fst snd]. split.
  - intros k e Hk. apply foldl_insert_lookup in Hk as [Hk|[_ Hk]]; [by apply Hid|done].
  - intros p e Hp. apply foldl_insert_lookup in Hp as [Hp|[_ Hp]]; [by apply Hpath|done].
Qed.

Lemma reconcile_keyed byId byPath ents :
  keyed byId byPath →
  keyed (reconcile byId byPath ents).1.1 (reconcile byId byPath ents).1.2.
Proof.
  intros [Hid Hpath]. destruct (reconcile_stored byId byPath ents) as [Sid Spath].
  split.
  - intros k e Hk. apply Sid in Hk as [Hk|(_ & _ & Hk)]; [by apply Hid|done].
  - intros p e Hp. apply Spath in Hp as [Hp|(_ & _ & Hp)]; [by apply Hpath|done].
Qed.

Lemma apply_listing_keyed initial w ents :
  store_keyed w → store_keyed (apply_listing initial w ents).1.
Proof.
  intros Hk. unfold apply_listing, store_keyed.
  destruct initial.
  - destruct (0 <? length ents)%nat; [|done]. by apply reconcile_initial_keyed.
  - destruct (length ents =? 0)%nat; [done|]. by apply reconcile_keyed.
Qed.

(** ** Invariants of the store along the run loop *)

Section store_invariant.
Variable P : gmap string FolderEntry → gmap string FolderEntry → Prop.

Hypothesis P_listing : ∀ initial w ents,
  holds P w → holds P (apply_listing initial w ents).1.

Lemma holds_frame w w' :
  EntriesById w' = EntriesById w → EntriesByPath w' = EntriesByPath w →
  holds P w → holds P w'.
Proof. unfold holds. by intros -> ->. Qed.

Lemma exit_with_holds {A} (a : A) e w sc tr :
  holds P w → holds P (watcher (exit_with a e w sc tr).2).
Proof. unfold exit_with. by destruct (exitch w). Qed.

Lemma cancels_holds n w : holds P w → holds P (cancels n w).
Proof.
  destruct (cancels_frame n w) as (H1 & H2 & _). by apply holds_frame.
Qed.

Lemma after_check_holds w : holds P w → holds P (after_check w).
Proof.
  destruct (after_check_frame w) as (H1 & H2 & _). by apply holds_frame.
Qed.

Lemma fetch_holds σ : holds P (watcher σ) → holds P (watcher (fetch σ).2).
Proof.
  destruct σ as [w [|x sc] tr]; cbn [watcher]; intros Hw.
  { by rewrite fetch_blocked. }
  rewrite fetch_eq. cbn zeta.
  destruct (rpc_error <$> rpc_err x).
  { by apply exit_with_holds, cancels_holds. }
  destruct (cancel_seen _).
  { by apply exit_with_holds, after_check_holds, cancels_holds. }
  cbn [snd watcher]. apply P_listing.
  by apply (holds_frame (cancels (cancel_calls x) w)), cancels_holds.
Qed.

Lemma waitForChanges_holds fuel : ∀ σ,
  holds P (watcher σ) → holds P (watcher (waitForChanges fuel σ).2).
Proof.
  induction fuel as [|fuel IH]; intros [w sc tr]; cbn [watcher]; intros Hw; [done|].
  destruct sc as [|x sc]; [done|].
  rewrite waitForChanges_eq. cbn zeta.
  destruct (rpc_error <$> rpc_err x).
  { by apply exit_with_holds, cancels_holds. }
  destruct (cancel_seen _).
  { by apply exit_with_holds, after_check_holds, cancels_holds. }
  destruct (Changes (poll_res x)).
  - cbn [snd watcher].
    by apply (holds_frame (cancels (cancel_calls x) w)), cancels_holds.
  - apply IH. cbn [watcher]. by apply cancels_holds.
Qed.

Lemma fetch_loop_holds fuel : ∀ σ,
  holds P (watcher σ) → holds P (watcher (fetch_loop fuel σ).2).
Proof.
  induction fuel as [|fuel IH]; intros σ Hw; [done|].
  rewrite fetch_loop_eq. pose proof (fetch_holds σ Hw) as Hf.
  destruct (fetch σ) as [[[|]| |] σ']; cbn [snd] in *; try done.
  destruct (hasMore (watcher σ')); [by apply IH|done].
Qed.

Lemma run_loop_holds inner fuel : ∀ σ,
  holds P (watcher σ) → holds P (watcher (run_loop fuel inner σ).2).
Proof.
  induction fuel as [|fuel IH]; intros σ Hw; [done|].
  rewrite run_loop_eq. pose proof (fetch_loop_holds inner σ Hw) as Hf.
  destruct (fetch_loop inner σ) as [[[|]| |] σ1]; cbn [snd] in *; try done.
  pose proof (waitForChanges_holds inner σ1 Hf) as Hp.
  destruct (waitForChanges inner σ1) as [[[|]| |] σ2]; cbn [snd] in *; try done.
  by apply IH.
Qed.

Lemma Run_holds σ : holds P (watcher σ) → holds P (watcher (Run σ).2).
Proof. unfold Run. apply run_loop_holds. Qed.
End store_invariant.

(** From the empty store, the initial listing [id1] at "/x", [id2] at "/y"
    followed by the incremental batch [id2] at "/x" (the rename with
    displacement of the specification) leaves two entries of identity [id2]
    in [EntriesByPath], one of which [EntriesById] does not hold. *)
Lemma entry_store_not_consistent :
  ¬ store_consistent
      (watcher (Run (mkWorld fresh_watcher
                       [listing [id1_at_x; id2_at_y] "c1" true;
                        listing [id2_at_x] "c2" false] [])).2).
Proof.
  intros [_ H]. specialize (H "/y" id2_at_y).
  assert (Hpath : EntriesByPath
            (watcher (Run (mkWorld fresh_watcher
                       [listing [id1_at_x; id2_at_y] "c1" true;
                        listing [id2_at_x] "c2" false] [])).2) !! "/y"
          = Some id2_at_y) by (vm_compute; reflexivity).
  assert (Hid : EntriesById
            (watcher (Run (mkWorld fresh_watcher
                       [listing [id1_at_x; id2_at_y] "c1" true;
                        listing [id2_at_x] "c2" false] [])).2) !! Id id2_at_y
          = Some id2_at_x) by (vm_compute; reflexivity).
  destruct (H Hpath) as [_ H']. rewrite Hid in H'. discriminate H'.
Qed.

(** C2 (amended).  After any run of the watcher from the store of
    [NewFolderWatcher] (any script of listing and long-poll replies,
    hence any sequence of reconciliation passes), every entry of
    [EntriesById] is stored under its own identity and every entry of
    [EntriesByPath] under its own path key; so no two distinct entries of
    [EntriesById] share an identity and no two distinct entries of
    [EntriesByPath] share a path key.  (The two maps need not hold the same
    entries.) *)
Theorem entry_store_keyed (c : Client) (path : string) (m : DirMode)
    (w : FolderWatcher) (sc : list exchange) :
  NewFolderWatcher (Some c) path m = Some w →
  let w' := watcher (Run (mkWorld w sc [])).2 in
  store_keyed w'
  ∧ (∀ k1 k2 e1 e2, EntriesById w' !! k1 = Some e1 → EntriesById w' !! k2 = Some e2 →
                    Id e1 = Id e2 → e1 = e2)
  ∧ (∀ p1 p2 e1 e2, EntriesByPath w' !! p1 = Some e1 →
                    EntriesByPath w' !! p2 = Some e2 →
                    PathLower e1 = PathLower e2 → e1 = e2).
Proof.
  intros Hnew w'. injection Hnew as <-.
  assert (Hk : store_keyed w').
  { subst w'. apply (Run_holds keyed apply_listing_keyed). split; intros ? ? H;
      cbn in H; by rewrite lookup_empty in H. }
  split; [done|]. destruct Hk as [Hid Hpath]. split.
  - intros k1 k2 e1 e2 H1 H2 He.
    pose proof (Hid _ _ H1). pose proof (Hid _ _ H2). congruence.
  - intros p1 p2 e1 e2 H1 H2 He.
    pose proof (Hpath _ _ H1). pose proof (Hpath _ _ H2). congruence.
Qed.

Lemma entry_store_keyed_example :
  store_keyed
    (watcher (Run (mkWorld fresh_watcher
                     [listing [id1_at_x; id2_at_y] "c1" true;
                      listing [id2_at_x] "c2" false] [])).2)
  ∧ (∀ k1 k2 e1 e2,
       EntriesById (watcher (Run (mkWorld fresh_watcher
                     [listing [id1_at_x; id2_at_y] "c1" true;
                      listing [id2_at_x] "c2" false] [])).2) !! k1 = Some e1 →
       EntriesById (watcher (Run (mkWorld fresh_watcher
                     [listing [id1_at_x; id2_at_y] "c1" true;
                      listing [id2_at_x] "c2" false] [])).2) !! k2 = Some e2 →
       Id e1 = Id e2 → e1 = e2)
  ∧ (∀ p1 p2 e1 e2,
       EntriesByPath (watcher (Run (mkWorld fresh_watcher
                     [listing [id1_at_x; id2_at_y] "c1" true;
                      listing [id2_at_x] "c2" false] [])).2) !! p1 = Some e1 →
       EntriesByPath (watcher (Run (mkWorld fresh_watcher
                     [listing [id1_at_x; id2_at_y] "c1" true;
                      listing [id2_at_x] "c2" false] [])).2) !! p2 = Some e2 →
       PathLower e1 = PathLower e2 → e1 = e2).
Proof.
  exact (entry_store_keyed (mkClient "token") "/photos" DirModeShallow fresh_watcher
           [listing [id1_at_x; id2_at_y] "c1" true; listing [id2_at_x] "c2" false]
           fresh_watcher_new).
Defined.

(** ** The buckets of an emitted delta *)

(** Each pair of buckets can overlap in a delta handed to the callback:
    a row followed by the tombstone of its path ([Added] and [Removed]); two
    rows of one identity ([Added] and [Updated]); the tombstone of the old
    path of [id2] followed by [id2] on the slot of [id1] ([Updated] and
    [Removed]). *)
Lemma emitted_delta_overlaps :
  (∃ c, EvChange c ∈ trace (fetch (mkWorld (tracking ∅ ∅)
                              [listing [id1_at_x; tombstone "/x"] "c1" false] [])).2
        ∧ "id1" ∈ Added c ∧ "id1" ∈ Removed c ∧ ¬ disjoint_buckets c)
  ∧ (∃ c, EvChange c ∈ trace (fetch (mkWorld (tracking ∅ ∅)
                                [listing [id1_at_x; row "file" "id1" "/x" "z"]
                                         "c1" false] [])).2
          ∧ "id1" ∈ Added c ∧ "id1" ∈ Updated c ∧ ¬ disjoint_buckets c)
  ∧ (∃ c, EvChange c ∈ trace (fetch (mkWorld
                                (tracking (<[ "id1" := id1_at_x ]> {[ "id2" := id2_at_y ]})
                                          (<[ "/x" := id1_at_x ]> {[ "/y" := id2_at_y ]}))
                                [listing [tombstone "/y"; id2_at_x] "c1" false] [])).2
          ∧ "id2" ∈ Updated c ∧ "id2" ∈ Removed c ∧ ¬ disjoint_buckets c).
Proof.
  split; [|split].
  - exists (mkChanges ["id1"] [] ["id1"]).
    assert (Hin : "id1" ∈ ["id1"]) by left.
    split; [vm_compute; right; left|].
    split; [done|]. split; [done|].
    intros (_ & H & _). by apply (H "id1").
  - exists (mkChanges ["id1"] ["id1"] []).
    assert (Hin : "id1" ∈ ["id1"]) by left.
    split; [vm_compute; right; left|].
    split; [done|]. split; [done|].
    intros (H & _ & _). by apply (H "id1").
  - exists (mkChanges [] ["id2"] ["id1"; "id2"]).
    assert (Hin : "id2" ∈ ["id2"]) by left.
    assert (Hin' : "id2" ∈ ["id1"; "id2"]) by (right; left).
    split; [vm_compute; right; left|].
    split; [done|]. split; [done|].
    intros (_ & _ & H). by apply (H "id2").
Qed.

Lemma fetch_changes w x sc tr c :
  EvChange c ∈ drop (length tr) (trace (fetch (mkWorld w (x :: sc) tr)).2) →
  rpc_err x = None
  ∧ EvChange c ∈ (apply_listing (bool_decide (Cursor w = ""))
                    (set_cursor (cancels (cancel_calls x) w)
                       (ListFolderResult.Cursor (list_res x))
                       (ListFolderResult.HasMore (list_res x)))
                    (ListFolderResult.Entries (list_res x))).2.
Proof.
  rewrite fetch_eq. cbn zeta.
  assert (Hexit : ∀ e w1 oe,
    EvChange c ∈ drop (length tr)
      (trace (exit_with false e w1 sc (tr ++ [EvRPC (fetch_request w) oe])).2) →
    False).
  { intros e w1 oe. unfold exit_with. destruct (exitch w1); cbn [snd trace].
    - rewrite <- app_assoc, drop_app_length. cbn.
      intros H. apply elem_of_cons in H as [H|H]; [done|].
      apply elem_of_cons in H as [H|H]; [done|]. by apply elem_of_nil in H.
    - rewrite drop_app_length.
      intros H. apply elem_of_cons in H as [H|H]; [done|]. by apply elem_of_nil in H. }
  destruct (rpc_err x) as [f|]; cbn [fmap option_fmap option_map].
  { intros H. by apply Hexit in H. }
  destruct (cancel_seen _).
  { intros H. by apply Hexit in H. }
  cbn [snd trace]. rewrite <- app_assoc, drop_app_length. cbn [app].
  intros H. apply elem_of_cons in H as [H|H]; [done|]. done.
Qed.

(** C4 (amended).  For every delta [c] handed to the change callback by a
    pass over the rows [ents]: after an initial listing, [c] has only [Added]
    identities, so its buckets are pairwise disjoint; after an incremental
    listing, [Removed] has no duplicate, [Added] and [Updated] together hold
    exactly the identities of the content rows, one occurrence per row, so
    when these rows carry pairwise distinct identities [Added] and [Updated]
    are disjoint and free of duplicates.  ([Removed] may share identities with
    [Added] and with [Updated].) *)
Theorem emitted_delta_buckets (w : FolderWatcher) (x : exchange)
    (sc : list exchange) (tr : list event) (c : FolderChanges) :
  EvChange c ∈ drop (length tr) (trace (fetch (mkWorld w (x :: sc) tr)).2) →
  let ents := ListFolderResult.Entries (list_res x) in
  (Cursor w = "" → c = mkChanges (Id <$> ents) [] [] ∧ disjoint_buckets c)
  ∧ (Cursor w ≠ "" →
       NoDup (Removed c)
       ∧ Added c ++ Updated c ≡ₚ Id <$> filter is_content ents
       ∧ (NoDup (Id <$> filter is_content ents) →
            NoDup (Added c) ∧ NoDup (Updated c)
            ∧ ∀ i, i ∈ Added c → i ∉ Updated c)).
Proof.
  intros Hin ents. apply fetch_changes in Hin as [_ Hin]. fold ents in Hin.
  unfold apply_listing in Hin. split.
  - intros Hc. rewrite bool_decide_eq_true_2 in Hin by done.
    destruct (0 <? length ents)%nat; [|by apply elem_of_nil in Hin].
    rewrite reconcile_initial_eq in Hin. cbn [snd] in Hin.
    apply list_elem_of_singleton in Hin. injection Hin as ->.
    split; [done|].
    split; [|split]; cbn; intros i H H'; by apply elem_of_nil in H'.
  - intros Hc. rewrite bool_decide_eq_false_2 in Hin by done.
    destruct (length ents =? 0)%nat; [by apply elem_of_nil in Hin|].
    match type of Hin with context [reconcile ?a ?b ents] =>
      destruct (reconcile_changes a b ents) as [Hnd Hperm];
      remember (reconcile a b ents) as res eqn:Hres; clear Hres end.
    destruct (has_changes _); [|by apply elem_of_nil in Hin].
    apply list_elem_of_singleton in Hin. injection Hin as ->.
    split; [done|]. split; [done|].
    intros Hids. rewrite <- Hperm in Hids.
    apply NoDup_app in Hids as (H1 & H2 & H3). done.
Qed.

(** The instance: the rename with displacement of the specification. *)
Lemma emitted_delta_buckets_example :
  NoDup (Removed (mkChanges [] ["id2"] ["id1"]))
  ∧ Added (mkChanges [] ["id2"] ["id1"]) ++ Updated (mkChanges [] ["id2"] ["id1"])
    ≡ₚ Id <$> filter is_content [id2_at_x]
  ∧ (NoDup (Id <$> filter is_content [id2_at_x]) →
       NoDup (Added (mkChanges [] ["id2"] ["id1"]))
       ∧ NoDup (Updated (mkChanges [] ["id2"] ["id1"]))
       ∧ ∀ i, i ∈ Added (mkChanges [] ["id2"] ["id1"]) →
              i ∉ Updated (mkChanges [] ["id2"] ["id1"])).
Proof.
  assert (Hin : EvChange (mkChanges [] ["id2"] ["id1"])
                ∈ drop (length (@nil event))
                    (trace (fetch (mkWorld
                       (tracking (<[ "id1" := id1_at_x ]> {[ "id2" := id2_at_y ]})
                                 (<[ "/x" := id1_at_x ]> {[ "/y" := id2_at_y ]}))
                       [listing [id2_at_x] "c1" false] [])).2)).
  { vm_compute. right. left. }
  apply (proj2 (emitted_delta_buckets _ _ _ _ _ Hin)).
  discriminate.
Defined.

(** ** Cursor continuity *)

Lemma apply_listing_cursor initial w ents :
  Cursor (apply_listing initial w ents).1 = Cursor w
  ∧ hasMore (apply_listing initial w ents).1 = hasMore w.
Proof.
  unfold apply_listing. destruct initial.
  - by destruct (0 <? length ents)%nat.
  - by destruct (length ents =? 0)%nat.
Qed.

(** The first event of a call of [fetch] is its request. *)
Lemma fetch_first_event w x sc tr :
  ∃ rest, trace (fetch (mkWorld w (x :: sc) tr)).2
          = tr ++ EvRPC (fetch_request w) (rpc_error <$> rpc_err x) :: rest.
Proof.
  rewrite fetch_eq. cbn zeta.
  destruct (rpc_error <$> rpc_err x) as [e|].
  { unfold exit_with. destruct (exitch _); cbn [snd trace].
    - rewrite <- app_assoc. by eexists.
    - by eexists. }
  destruct (cancel_seen _).
  { unfold exit_with. destruct (exitch _); cbn [snd trace].
    - rewrite <- app_assoc. by eexists.
    - by eexists. }
  cbn [snd trace]. rewrite <- app_assoc. by eexists.
Qed.




(** ** Tombstone rows and the store *)




(** ** The backoff of the long-poll driver *)

(** As long as the product fits in an int64, the driver sleeps for the
    backoff of the response, in nanoseconds. *)
Lemma backoff_duration_small (n : N) :
  (n ≤ 9223372036)%N → backoff_duration n = (Z.of_N n * Second)%Z.
Proof.
  intros Hn. unfold backoff_duration, wrap_int64, Second.
  assert (H1 : ((Z.of_N n + 2 ^ 63) mod 2 ^ 64 = Z.of_N n + 2 ^ 63)%Z).
  { apply Z.mod_small. lia. }
  rewrite H1. replace (Z.of_N n + 2 ^ 63 - 2 ^ 63)%Z with (Z.of_N n) by lia.
  rewrite Z.mod_small by lia. lia.
Qed.

(** One iteration of the driver on a response without error and without
    cancellation: the sleep, then the return with [hasMore] set, or the next
    long-poll. *)
Lemma waitForChanges_iteration fuel w x sc tr :
  rpc_err x = None → cancel_seen (cancels (cancel_calls x) w) = false →
  waitForChanges (S fuel) (mkWorld w (x :: sc) tr)
  = let w1 := cancels (cancel_calls x) w in
    let tr2 := tr ++ [EvRPC (ListFolderLongpollReq (Cursor w) 30) None]
                  ++ sleep_events (poll_res x) in
    if Changes (poll_res x)
    then (Ret true, mkWorld (set_hasMore w1 true) sc tr2)
    else waitForChanges fuel (mkWorld w1 sc tr2).
Proof.
  intros Herr Hseen. rewrite waitForChanges_eq. cbn zeta.
  rewrite Herr, Hseen. cbn [fmap option_fmap option_map].
  by rewrite <- app_assoc.
Qed.

(** C8 (the code at the failing input).  A long-poll response with
    [backoff = 9223372037] seconds and no changes: the duration handed to
    [time.Sleep] is negative, so the driver does not wait, and the next
    long-poll follows at once. *)
Theorem backoff_overflow :
  backoff_duration 9223372037 = (-9223372036709551616)%Z
  ∧ slept (backoff_duration 9223372037) = 0%Z
  ∧ trace (waitForChanges 2 (mkWorld (tracking ∅ ∅)
                               [polled false 9223372037; polled true 0] [])).2
    = [EvRPC (ListFolderLongpollReq "c0" 30) None;
       EvSleep (-9223372036709551616);
       EvRPC (ListFolderLongpollReq "c0" 30) None].
Proof. vm_compute. done. Qed.

(** ** Cancel *)

(** C9 (the code at the failing input).  On a new watcher the first [Cancel]
    returns and the second one blocks; after [Run] has returned on a transport
    error, nothing receives from [cancelch] any more and the second [Cancel]
    blocks as well. *)
Theorem second_Cancel_blocks :
  (∃ w1, Cancel fresh_watcher = Some w1 ∧ Cancel w1 = None)
  ∧ (Run (mkWorld fresh_watcher [failing (CheckRspFailed "boom")] [])).1 = Ret tt
  ∧ (∃ w1, Cancel (watcher (Run (mkWorld fresh_watcher
                                   [failing (CheckRspFailed "boom")] [])).2)
           = Some w1
           ∧ Cancel w1 = None).
Proof.
  split; [|split].
  - eexists. split; reflexivity.
  - reflexivity.
  - eexists. split; vm_compute; reflexivity.
Qed.

(** In general: [Cancel] returns exactly when the buffer of [cancelch] is
    empty, and then fills it. *)
Lemma Cancel_spec w :
  match Cancel w with
  | Some w' =>
      ∃ ch, cancelch w = Some ch ∧ (chan_len ch < chan_cap ch)%nat
            ∧ cancelch w' = Some (mkChan (chan_cap ch) (S (chan_len ch)))
  | None =>
      cancelch w = None
      ∨ ∃ ch, cancelch w = Some ch ∧ (chan_cap ch ≤ chan_len ch)%nat
  end.
Proof.
  unfold Cancel, chan_send. destruct (cancelch w) as [ch|]; [|by left].
  destruct (chan_len ch <? chan_cap ch)%nat eqn:Hlt.
  - apply Nat.ltb_lt in Hlt. cbn. eauto.
  - apply Nat.ltb_ge in Hlt. right. eauto.
Qed.

(** ** The constructor *)

(** C10.  [NewFolderWatcher] returns nil exactly when the client is nil;
    for a client it returns a watcher with the empty cursor, so that the first
    [fetch] sends the initial listing request for the path and the mode, with
    empty [EntriesById] and [EntriesByPath], and with an allocated exit
    channel, which [Exit] is. *)
Theorem NewFolderWatcher_spec (client : option Client) (path : string) (m : DirMode) :
  (NewFolderWatcher client path m = None ↔ client = None)
  ∧ ∀ c, client = Some c →
      ∃ w, NewFolderWatcher client path m = Some w
           ∧ Cursor w = ""
           ∧ EntriesById w = ∅ ∧ EntriesByPath w = ∅
           ∧ is_Some (exitch w) ∧ Exit w = exitch w
           ∧ fetch_request w
             = ListFolderReq path (bool_decide (m = DirModeRecursive))
                             false false false
           ∧ ∀ x sc tr, ∃ rest,
               trace (fetch (mkWorld w (x :: sc) tr)).2
               = tr ++ EvRPC (ListFolderReq path (bool_decide (m = DirModeRecursive))
                                            false false false)
                             (rpc_error <$> rpc_err x) :: rest.
Proof.
  split.
  - destruct client; cbn; split; congruence.
  - intros c ->. eexists. split; [reflexivity|].
    cbn [Cursor EntriesById EntriesByPath exitch Exit].
    split; [done|]. split; [done|]. split; [done|]. split; [eauto|].
    split; [done|]. split; [done|].
    intros x sc tr.
    destruct (fetch_first_event
                (mkWatcher false (Some (make_chan 0)) (Some (make_chan 1)) false c
                           "" path m ∅ ∅ (Some (make_chan 0))) x sc tr)
      as [rest Hrest].
    exists rest. exact Hrest.
Qed.

(** ** Further properties of a pass and of the run loop *)

(** X1.  An incremental page without rows, or made of tombstones of vacant
    paths only, does not call the change callback and leaves both maps as
    they are. *)
Theorem noop_pass_is_silent (w : FolderWatcher) (x : exchange)
    (sc : list exchange) (tr : list event) :
  Cursor w ≠ "" →
  Forall (λ e, Tag e = "deleted" ∧ EntriesByPath w !! PathLower e = None)
         (ListFolderResult.Entries (list_res x)) →
  (∀ c, EvChange c ∉ drop (length tr) (trace (fetch (mkWorld w (x :: sc) tr)).2))
  ∧ EntriesById (watcher (fetch (mkWorld w (x :: sc) tr)).2) = EntriesById w
  ∧ EntriesByPath (watcher (fetch (mkWorld w (x :: sc) tr)).2) = EntriesByPath w.
Proof.
  intros Hc Hall.
  destruct (cancels_frame (cancel_calls x) w) as (Hid & Hpath & _).
  assert (Hloop : ∀ ents byId,
    Forall (λ e, Tag e = "deleted" ∧ EntriesByPath w !! PathLower e = None) ents →
    fetch_entries (mkLoop byId (EntriesByPath w) [] [] ∅) ents
    = mkLoop byId (EntriesByPath w) [] [] ∅).
  { induction ents as [|e ents IH]; intros byId Hents; [done|].
    apply Forall_cons in Hents as [[Ht Hp] Hents].
    rewrite fetch_entries_cons, fetch_entry_tombstone_vacant by done. by apply IH. }
  assert (Hrec : reconcile (EntriesById w) (EntriesByPath w)
                           (ListFolderResult.Entries (list_res x))
                 = (EntriesById w, EntriesByPath w, mkChanges [] [] [])).
  { unfold reconcile. rewrite Hloop by done. cbn [delm lById lByPath lAdded lUpdated].
    by rewrite map_to_list_empty, map_size_empty. }
  split.
  - intros c Hin. apply fetch_changes in Hin as [_ Hin].
    rewrite bool_decide_eq_false_2 in Hin by done.
    unfold apply_listing in Hin.
    destruct (length _ =? 0)%nat; [by apply elem_of_nil in Hin|].
    cbn [set_cursor EntriesById EntriesByPath] in Hin.
    rewrite Hid, Hpath, Hrec in Hin. cbn in Hin. by apply elem_of_nil in Hin.
  - rewrite fetch_eq. cbn zeta.
    destruct (after_check_frame (cancels (cancel_calls x) w)) as (Hid' & Hpath' & _).
    destruct (rpc_error <$> rpc_err x).
    { unfold exit_with. by destruct (exitch _). }
    destruct (cancel_seen _).
    { unfold exit_with. destruct (exitch _); cbn [snd watcher]; by rewrite Hid', Hpath'. }
    cbn [snd watcher]. rewrite bool_decide_eq_false_2 by done.
    unfold apply_listing. destruct (length _ =? 0)%nat; [done|].
    cbn [fst set_cursor set_entries EntriesById EntriesByPath].
    by rewrite Hid, Hpath, Hrec.
Qed.

Lemma noop_pass_is_silent_example :
  (∀ c, EvChange c ∉ drop (length (@nil event))
          (trace (fetch (mkWorld (tracking {[ "id1" := id1_at_x ]} {[ "/x" := id1_at_x ]})
                           [listing [tombstone "/gone"] "c1" false] [])).2))
  ∧ EntriesById (watcher (fetch (mkWorld
                   (tracking {[ "id1" := id1_at_x ]} {[ "/x" := id1_at_x ]})
                   [listing [tombstone "/gone"] "c1" false] [])).2)
    = EntriesById (tracking {[ "id1" := id1_at_x ]} {[ "/x" := id1_at_x ]})
  ∧ EntriesByPath (watcher (fetch (mkWorld
                     (tracking {[ "id1" := id1_at_x ]} {[ "/x" := id1_at_x ]})
                     [listing [tombstone "/gone"] "c1" false] [])).2)
    = EntriesByPath (tracking {[ "id1" := id1_at_x ]} {[ "/x" := id1_at_x ]}).
Proof.
  apply (noop_pass_is_silent
           (tracking {[ "id1" := id1_at_x ]} {[ "/x" := id1_at_x ]})
           (listing [tombstone "/gone"] "c1" false) [] []).
  - discriminate.
  - repeat constructor.
Defined.

Lemma fetch_entries_additions ents : ∀ s,
  Forall is_content ents → NoDup (PathLower <$> ents) →
  (∀ e, e ∈ ents → lByPath s !! PathLower e = None) →
  fetch_entries s ents
  = mkLoop (foldl (λ m e, <[Id e := e]> m) (lById s) ents)
           (foldl (λ m e, <[PathLower e := e]> m) (lByPath s) ents)
           (lAdded s ++ (Id <$> ents)) (lUpdated s) (delm s).
Proof.
  induction ents as [|e ents IH]; intros s Hc Hnd Hvac.
  - cbn. rewrite app_nil_r. by destruct s.
  - apply Forall_cons in Hc as [Hce Hc]. rewrite fmap_cons in Hnd.
    apply NoDup_cons in Hnd as [Hnin Hnd].
    rewrite fetch_entries_cons.
    rewrite fetch_entry_add; [|done|apply Hvac; left].
    rewrite IH; [|done|done|].
    + cbn [lById lByPath lAdded lUpdated delm foldl fmap list_fmap].
      by rewrite <- app_assoc.
    + intros e' Hin. cbn [lByPath].
      rewrite lookup_insert_ne; [apply Hvac; by right|].
      intros Heq. apply Hnin. rewrite Heq. by apply list_elem_of_fmap_2.
Qed.

(** X2.  A batch of content rows at pairwise distinct paths, none of which
    the store holds, is a pure addition: every identity is [Added], in the
    order of the batch, nothing is [Updated] or [Removed], and every row is
    stored under its identity and its path. *)
Theorem pure_addition (byId byPath : gmap string FolderEntry)
    (ents : list FolderEntry) :
  Forall is_content ents → NoDup (PathLower <$> ents) →
  (∀ e, e ∈ ents → byPath !! PathLower e = None) →
  reconcile byId byPath ents
  = (foldl (λ m e, <[Id e := e]> m) byId ents,
     foldl (λ m e, <[PathLower e := e]> m) byPath ents,
     mkChanges (Id <$> ents) [] []).
Proof.
  intros Hc Hnd Hvac. unfold reconcile.
  rewrite fetch_entries_additions by done.
  cbn [lById lByPath lAdded lUpdated delm app].
  by rewrite map_to_list_empty, map_size_empty.
Qed.

(** The instance: the pure addition of the specification. *)
Lemma pure_addition_example :
  reconcile ∅ ∅ [row "file" "idA" "/a" "1"; row "folder" "idB" "/b" "2"]
  = (<[ "idB" := row "folder" "idB" "/b" "2" ]> (<[ "idA" := row "file" "idA" "/a" "1" ]> ∅),
     <[ "/b" := row "folder" "idB" "/b" "2" ]> (<[ "/a" := row "file" "idA" "/a" "1" ]> ∅),
     mkChanges ["idA"; "idB"] [] []).
Proof.
  apply (pure_addition ∅ ∅ [row "file" "idA" "/a" "1"; row "folder" "idB" "/b" "2"]).
  - repeat constructor; by cbn.
  - cbn. apply NoDup_cons. split.
    + intros H. apply list_elem_of_singleton in H. discriminate H.
    + apply NoDup_singleton.
  - intros e _. apply lookup_empty.
Defined.

(** X3.  The run loop delivers at most one terminal signal on the exit
    channel, as the last event, and it returns exactly when it has delivered
    one. *)
Theorem single_terminal_signal (σ : world) :
  is_Some (exitch (watcher σ)) →
  ∃ t, trace (Run σ).2 = trace σ ++ t
       ∧ (((Run σ).1 = Ret tt ∧ ∃ t0 e, t = t0 ++ [EvExit e] ∧ exits t = [e])
          ∨ ((Run σ).1 = Blocked ∧ exits t = [])).
Proof.
  intros Hex. pose proof (Run_fuel_enough σ Hex) as Hfuel.
  destruct (Run_post σ Hex) as (_ & _ & _ & t & Ht & _ & Hshape).
  exists t. split; [done|]. destruct (Run σ).1 as [[]| |]; [| |done].
  - left. split; [done|].
    cbn in Hshape. destruct Hshape as (t0 & req & oe & -> & Hq).
    exists (t0 ++ [EvRPC req oe]), (default ErrCanceled oe).
    split; [by rewrite <- app_assoc|].
    unfold exits. rewrite omap_app. fold (exits t0). by rewrite exits_quiet.
  - right. split; [done|]. by apply exits_quiet.
Qed.

Lemma single_terminal_signal_example :
  ∃ t, trace (Run (mkWorld fresh_watcher
                     [listing [id1_at_x] "c1" false;
                      mkExchange 1 None (ListFolderResult.mk [] "" false)
                                 (mkLongPollResult true 5)] [])).2
       = [] ++ t
       ∧ (((Run (mkWorld fresh_watcher
                   [listing [id1_at_x] "c1" false;
                    mkExchange 1 None (ListFolderResult.mk [] "" false)
                               (mkLongPollResult true 5)] [])).1 = Ret tt
           ∧ ∃ t0 e, t = t0 ++ [EvExit e] ∧ exits t = [e])
          ∨ ((Run (mkWorld fresh_watcher
                     [listing [id1_at_x] "c1" false;
                      mkExchange 1 None (ListFolderResult.mk [] "" false)
                                 (mkLongPollResult true 5)] [])).1 = Blocked
             ∧ exits t = [])).
Proof.
  apply (single_terminal_signal
           (mkWorld fresh_watcher
              [listing [id1_at_x] "c1" false;
               mkExchange 1 None (ListFolderResult.mk [] "" false)
                          (mkLongPollResult true 5)] [])).
  cbn. eauto.
Defined.

(** X4.  Whatever is delivered on the exit channel ends the run, and it is
    the error of the round trip just made, or [ErrCanceled] when that round
    trip returned no error (the cancellation was observed on its return). *)
Theorem exit_reason (σ : world) t1 e t2 :
  is_Some (exitch (watcher σ)) →
  trace (Run σ).2 = trace σ ++ t1 ++ EvExit e :: t2 →
  (Run σ).1 = Ret tt ∧ t2 = []
  ∧ ∃ t0 req oe, t1 = t0 ++ [EvRPC req oe] ∧ quiet t0
                 ∧ e = default ErrCanceled oe.
Proof.
  intros Hex Htr.
  destruct (Run_post σ Hex) as (_ & _ & _ & t & Ht & _ & Hshape).
  rewrite Ht in Htr. apply app_inv_head in Htr. subst t.
  assert (Hnq : ¬ quiet (t1 ++ EvExit e :: t2)).
  { intros Hq. unfold quiet in Hq. rewrite Forall_forall in Hq.
    assert (Hin : EvExit e ∈ t1 ++ EvExit e :: t2) by (apply elem_of_app; right; left).
    by apply Hq in Hin. }
  destruct (Run σ).1 as [[]| |]; try done.
  cbn [always_stop shape] in Hshape.
  destruct Hshape as (t0 & req & oe & Heq & Hq).
  assert (Hlook : (t0 ++ [EvRPC req oe; EvExit (default ErrCanceled oe)])
                    !! length t1 = Some (EvExit e)).
  { rewrite <- Heq. by rewrite list_lookup_middle. }
  destruct (decide (length t1 < length t0)%nat) as [Hlt|Hge].
  { rewrite lookup_app_l in Hlook by done.
    apply list_elem_of_lookup_2 in Hlook.
    unfold quiet in Hq. rewrite Forall_forall in Hq. by apply Hq in Hlook. }
  rewrite lookup_app_r in Hlook by lia.
  destruct (length t1 - length t0)%nat as [|[|n]] eqn:Hd; cbn in Hlook; try done.
  injection Hlook as He.
  assert (Hlen : length t1 = length (t0 ++ [EvRPC req oe])).
  { rewrite length_app. cbn. lia. }
  change (t0 ++ [EvRPC req oe; EvExit (default ErrCanceled oe)])
    with (t0 ++ [EvRPC req oe] ++ [EvExit (default ErrCanceled oe)]) in Heq.
  rewrite app_assoc in Heq.
  apply app_inj_1 in Heq as [-> Heq]; [|done].
  injection Heq as _ <-.
  split; [done|]. split; [done|]. by exists t0, req, oe.
Qed.

(** The instance: [Cancel] is called while the first long-poll is in
    flight. *)
Lemma exit_reason_example :
  (Run (mkWorld fresh_watcher
          [listing [id1_at_x] "c1" false;
           mkExchange 1 None (ListFolderResult.mk [] "" false)
                      (mkLongPollResult true 5)] [])).1 = Ret tt
  ∧ @nil event = []
  ∧ ∃ t0 req oe,
      [EvRPC (ListFolderReq "/photos" false false false false) None;
       EvChange (mkChanges ["id1"] [] []);
       EvRPC (ListFolderLongpollReq "c1" 30) None]
      = t0 ++ [EvRPC req oe] ∧ quiet t0
      ∧ ErrCanceled = default ErrCanceled oe.
Proof.
  apply (exit_reason
           (mkWorld fresh_watcher
              [listing [id1_at_x] "c1" false;
               mkExchange 1 None (ListFolderResult.mk [] "" false)
                          (mkLongPollResult true 5)] [])).
  - cbn. eauto.
  - vm_compute. reflexivity.
Defined.

(** ** The identities of a delta as keys of [EntriesById] *)

Lemma fetch_entries_byId_other ents : ∀ s k,
  k ∉ Id <$> filter is_content ents →
  lById (fetch_entries s ents) !! k = lById s !! k.
Proof.
  induction ents as [|e ents IH]; intros s k Hk; [done|].
  rewrite fetch_entries_cons. rewrite filter_cons in Hk.
  destruct (fetch_entry_maps s e) as [Hid _].
  destruct (decide (is_content e)) as [Hc|Hc].
  - rewrite fmap_cons in Hk. apply not_elem_of_cons in Hk as [Hne Hk].
    rewrite IH by done. rewrite Hid, decide_False by done.
    by rewrite lookup_insert_ne.
  - rewrite IH by done. rewrite Hid. unfold is_content in Hc.
    destruct (decide (Tag e = "deleted")); [done|]. by destruct Hc.
Qed.

Lemma fetch_entries_byId_content ents : ∀ s i,
  i ∈ Id <$> filter is_content ents →
  ∃ e, lById (fetch_entries s ents) !! i = Some e
       ∧ e ∈ ents ∧ is_content e ∧ Id e = i.
Proof.
  induction ents as [|e ents IH]; intros s i Hi.
  { by apply elem_of_nil in Hi. }
  rewrite fetch_entries_cons.
  destruct (decide (i ∈ Id <$> filter is_content ents)) as [Hin|Hnin].
  - destruct (IH (fetch_entry s e) i Hin) as (e' & H1 & H2 & H3 & H4).
    exists e'. split; [done|]. split; [by right|done].
  - rewrite filter_cons in Hi. destruct (decide (is_content e)) as [Hc|Hc]; [|done].
    rewrite fmap_cons in Hi. apply elem_of_cons in Hi as [->|Hi]; [|done].
    exists e. rewrite fetch_entries_byId_other by done.
    destruct (fetch_entry_maps s e) as [Hid _].
    rewrite Hid, decide_False by done. rewrite lookup_insert_eq.
    split; [done|]. split; [left|done].
Qed.

(** X5.  The identities of a delta are keys of [EntriesById], as the
    comment of [FolderChanges] says, except where the buckets overlap: after
    a pass, a [Removed] identity is absent from [EntriesById]; an [Added] or
    [Updated] identity that is not also [Removed] is present, and the entry
    found is a content row of the batch with that identity. *)
Theorem delta_ids_resolve (byId byPath : gmap string FolderEntry)
    (ents : list FolderEntry) (i : string) :
  (i ∈ Removed (reconcile byId byPath ents).2 →
     (reconcile byId byPath ents).1.1 !! i = None)
  ∧ (i ∈ Added (reconcile byId byPath ents).2
     ∨ i ∈ Updated (reconcile byId byPath ents).2 →
     i ∉ Removed (reconcile byId byPath ents).2 →
     ∃ e, (reconcile byId byPath ents).1.1 !! i = Some e
          ∧ Id e = i ∧ e ∈ ents ∧ is_content e).
Proof.
  destruct (reconcile_eq byId byPath ents) as (byId' & byPath' & Heq & HbyId & _).
  rewrite Heq. cbn [fst snd Added Updated Removed]. split.
  - intros Hin. apply elem_of_fst_map_to_list in Hin.
    rewrite HbyId. by rewrite decide_True.
  - intros Hin Hnr. rewrite elem_of_fst_map_to_list in Hnr.
    rewrite HbyId, decide_False by done.
    assert (Hc : i ∈ Id <$> filter is_content ents).
    { pose proof (fetch_entries_buckets ents (mkLoop byId byPath [] [] ∅)) as Hp.
      cbn [lAdded lUpdated app] in Hp. rewrite <- Hp. by apply elem_of_app. }
    destruct (fetch_entries_byId_content ents (mkLoop byId byPath [] [] ∅) i Hc)
      as (e & H1 & H2 & H3 & H4).
    by exists e.
Qed.

(** ** The first listing *)

Lemma foldl_insert_present (f : FolderEntry → string) ents :
  ∀ (m : gmap string FolderEntry) e,
    e ∈ ents →
    ∃ e', foldl (λ m e, <[f e := e]> m) m ents !! f e = Some e'
          ∧ e' ∈ ents ∧ f e' = f e.
Proof.
  induction ents as [|a ents IH] using rev_ind; intros m e Hin.
  { by apply elem_of_nil in Hin. }
  rewrite foldl_app. cbn [foldl].
  destruct (decide (f a = f e)) as [Heq|Hne].
  - exists a. rewrite Heq, lookup_insert_eq. split; [done|].
    split; [|done]. apply elem_of_app. right. left.
  - rewrite lookup_insert_ne by done.
    apply elem_of_app in Hin as [Hin|Hin].
    + destruct (IH m e Hin) as (e' & H1 & H2 & H3).
      exists e'. split; [done|]. split; [|done]. apply elem_of_app. by left.
    + apply list_elem_of_singleton in Hin. by subst.
Qed.

(** X6.  The first [fetch] of a watcher without cursor, on a response
    without error and with rows, when no cancellation is observed: it sends
    the listing request of the path, reports the identities of all the rows
    as [Added], in their order and whatever their tag, and nothing else, and
    leaves every row's identity and path key bound in the store to a row of
    the response. *)
Theorem initial_listing_adds_all (w : FolderWatcher) (x : exchange)
    (sc : list exchange) (tr : list event) :
  Cursor w = "" → rpc_err x = None →
  cancel_seen (cancels (cancel_calls x) w) = false →
  ListFolderResult.Entries (list_res x) ≠ [] →
  let ents := ListFolderResult.Entries (list_res x) in
  let r := fetch (mkWorld w (x :: sc) tr) in
  r.1 = Ret true
  ∧ trace r.2
    = tr ++ [EvRPC (ListFolderReq (Path w) (bool_decide (dirMode w = DirModeRecursive))
                                  false false false) None;
             EvChange (mkChanges (Id <$> ents) [] [])]
  ∧ ∀ e, e ∈ ents →
      (∃ e', EntriesById (watcher r.2) !! Id e = Some e' ∧ e' ∈ ents ∧ Id e' = Id e)
      ∧ (∃ e', EntriesByPath (watcher r.2) !! PathLower e = Some e'
               ∧ e' ∈ ents ∧ PathLower e' = PathLower e).
Proof.
  intros Hc Herr Hseen Hne ents r. subst r. rewrite fetch_eq. cbn zeta.
  rewrite Herr, Hseen. cbn [fmap option_fmap option_map fst snd watcher trace].
  rewrite bool_decide_eq_true_2 by done. unfold apply_listing. fold ents.
  destruct ents as [|e0 ents'] eqn:Hents; [done|].
  change (0 <? length (e0 :: ents'))%nat with true. cbn iota.
  rewrite reconcile_initial_eq. cbn [fst snd set_entries EntriesById EntriesByPath].
  split; [done|]. split.
  - unfold fetch_request. rewrite decide_True by done. by rewrite <- app_assoc.
  - intros e Hin. split; by apply foldl_insert_present.
Qed.

Lemma initial_listing_adds_all_example :
  (fetch (mkWorld fresh_watcher
            [listing [id1_at_x; tombstone "/t"; id2_at_y] "c1" false] [])).1 = Ret true
  ∧ trace (fetch (mkWorld fresh_watcher
                    [listing [id1_at_x; tombstone "/t"; id2_at_y] "c1" false] [])).2
    = [] ++ [EvRPC (ListFolderReq "/photos" (bool_decide (DirModeShallow = DirModeRecursive))
                                  false false false) None;
             EvChange (mkChanges (Id <$> [id1_at_x; tombstone "/t"; id2_at_y]) [] [])]
  ∧ ∀ e, e ∈ [id1_at_x; tombstone "/t"; id2_at_y] →
      (∃ e', EntriesById (watcher (fetch (mkWorld fresh_watcher
                 [listing [id1_at_x; tombstone "/t"; id2_at_y] "c1" false] [])).2)
               !! Id e = Some e'
             ∧ e' ∈ [id1_at_x; tombstone "/t"; id2_at_y] ∧ Id e' = Id e)
      ∧ (∃ e', EntriesByPath (watcher (fetch (mkWorld fresh_watcher
                   [listing [id1_at_x; tombstone "/t"; id2_at_y] "c1" false] [])).2)
                 !! PathLower e = Some e'
               ∧ e' ∈ [id1_at_x; tombstone "/t"; id2_at_y]
               ∧ PathLower e' = PathLower e).
Proof.
  apply (initial_listing_adds_all fresh_watcher
           (listing [id1_at_x; tombstone "/t"; id2_at_y] "c1" false) [] []);
    [reflexivity | reflexivity | reflexivity | discriminate].
Defined.

(** ** Cancellation *)

(** X7.  A cancellation pending when the first response of [Run] arrives
    without error stops the run at once: [Run] returns after that single round
    trip, having delivered [ErrCanceled] and nothing to the change callback,
    with the store, the cursor and [hasMore] as they were; the rest of the
    script is never asked for. *)
Theorem cancel_stops_run (w : FolderWatcher) (x : exchange)
    (sc : list exchange) (tr : list event) :
  is_Some (exitch w) → rpc_err x = None →
  cancel_seen (cancels (cancel_calls x) w) = true →
  let r := Run (mkWorld w (x :: sc) tr) in
  r.1 = Ret tt
  ∧ trace r.2 = tr ++ [EvRPC (fetch_request w) None; EvExit ErrCanceled]
  ∧ script r.2 = sc
  ∧ canceled (watcher r.2) = true
  ∧ EntriesById (watcher r.2) = EntriesById w
  ∧ EntriesByPath (watcher r.2) = EntriesByPath w
  ∧ Cursor (watcher r.2) = Cursor w
  ∧ hasMore (watcher r.2) = hasMore w.
Proof.
  intros [ch Hex] Herr Hseen r. subst r. unfold Run.
  rewrite run_loop_eq, fetch_loop_eq, fetch_eq. cbn zeta.
  rewrite Herr, Hseen. cbn [fmap option_fmap option_map].
  destruct (cancels_frame (cancel_calls x) w) as (H1 & H2 & H3 & H4 & H5 & H6).
  destruct (after_check_frame (cancels (cancel_calls x) w)) as (H1' & H2' & H3' & H4').
  unfold exit_with. rewrite exitch_after_check, H5, Hex.
  cbn [fst snd watcher script trace].
  split; [done|]. split; [by rewrite <- app_assoc|]. split; [done|].
  split.
  - unfold cancel_seen in Hseen. unfold after_check.
    destruct (canceled (cancels (cancel_calls x) w)) eqn:Hcd; [done|].
    cbn in Hseen. by destruct (chan_try_recv _).
  - by rewrite H1', H2', H3', H4', H1, H2, H3, H4.
Qed.

(** The instance: [Cancel] is called while the first listing is in flight. *)
Lemma cancel_stops_run_example :
  (Run (mkWorld fresh_watcher
          [mkExchange 1 None (ListFolderResult.mk [id1_at_x] "c1" true)
                      (mkLongPollResult false 0);
           listing [id2_at_y] "c2" false] [])).1 = Ret tt
  ∧ trace (Run (mkWorld fresh_watcher
                  [mkExchange 1 None (ListFolderResult.mk [id1_at_x] "c1" true)
                              (mkLongPollResult false 0);
                   listing [id2_at_y] "c2" false] [])).2
    = [] ++ [EvRPC (fetch_request fresh_watcher) None; EvExit ErrCanceled]
  ∧ script (Run (mkWorld fresh_watcher
                   [mkExchange 1 None (ListFolderResult.mk [id1_at_x] "c1" true)
                               (mkLongPollResult false 0);
                    listing [id2_at_y] "c2" false] [])).2
    = [listing [id2_at_y] "c2" false]
  ∧ canceled (watcher (Run (mkWorld fresh_watcher
                 [mkExchange 1 None (ListFolderResult.mk [id1_at_x] "c1" true)
                             (mkLongPollResult false 0);
                  listing [id2_at_y] "c2" false] [])).2) = true
  ∧ EntriesById (watcher (Run (mkWorld fresh_watcher
                    [mkExchange 1 None (ListFolderResult.mk [id1_at_x] "c1" true)
                                (mkLongPollResult false 0);
                     listing [id2_at_y] "c2" false] [])).2)
    = EntriesById fresh_watcher
  ∧ EntriesByPath (watcher (Run (mkWorld fresh_watcher
                      [mkExchange 1 None (ListFolderResult.mk [id1_at_x] "c1" true)
                                  (mkLongPollResult false 0);
                       listing [id2_at_y] "c2" false] [])).2)
    = EntriesByPath fresh_watcher
  ∧ Cursor (watcher (Run (mkWorld fresh_watcher
               [mkExchange 1 None (ListFolderResult.mk [id1_at_x] "c1" true)
                           (mkLongPollResult false 0);
                listing [id2_at_y] "c2" false] [])).2)
    = Cursor fresh_watcher
  ∧ hasMore (watcher (Run (mkWorld fresh_watcher
                [mkExchange 1 None (ListFolderResult.mk [id1_at_x] "c1" true)
                            (mkLongPollResult false 0);
                 listing [id2_at_y] "c2" false] [])).2)
    = hasMore fresh_watcher.
Proof.
  apply (cancel_stops_run fresh_watcher
           (mkExchange 1 None (ListFolderResult.mk [id1_at_x] "c1" true)
                       (mkLongPollResult false 0))
           [listing [id2_at_y] "c2" false] []).
  - cbn. eauto.
  - reflexivity.
  - reflexivity.
Defined.

(** X8.  Cancellation is sticky: once [checkCanceled] has observed a
    cancellation, the flag [canceled] is set, and every later call answers
    true without receiving from [cancelch] or changing the watcher, however
    many [Cancel] calls are made in between. *)
Theorem cancellation_is_sticky (w : FolderWatcher) (sc : list exchange)
    (tr : list event) :
  cancel_seen w = true →
  let σ1 := (checkCanceled (mkWorld w sc tr)).2 in
  (checkCanceled (mkWorld w sc tr)).1 = Ret true
  ∧ canceled (watcher σ1) = true
  ∧ ∀ n sc' tr',
      checkCanceled (mkWorld (cancels n (watcher σ1)) sc' tr')
      = (Ret true, mkWorld (cancels n (watcher σ1)) sc' tr').
Proof.
  intros Hseen σ1. subst σ1. rewrite checkCanceled_eq, Hseen. cbn [fst snd watcher].
  assert (Hc : canceled (after_check w) = true).
  { unfold cancel_seen in Hseen. unfold after_check.
    destruct (canceled w) eqn:Hcd; [done|].
    cbn in Hseen. by destruct (chan_try_recv _). }
  split; [done|]. split; [done|].
  intros n sc' tr'. rewrite checkCanceled_eq.
  destruct (cancels_frame n (after_check w)) as (_ & _ & _ & _ & _ & Hcn).
  remember (after_check w) as w1 eqn:Hw1. clear Hw1.
  unfold cancel_seen, after_check. by rewrite Hcn, Hc.
Qed.

Lemma cancellation_is_sticky_example :
  (checkCanceled (mkWorld (cancels 1 fresh_watcher) [] [])).1 = Ret true
  ∧ canceled (watcher (checkCanceled (mkWorld (cancels 1 fresh_watcher) [] [])).2) = true
  ∧ ∀ n sc' tr',
      checkCanceled
        (mkWorld (cancels n (watcher (checkCanceled
                                        (mkWorld (cancels 1 fresh_watcher) [] [])).2))
                 sc' tr')
      = (Ret true,
         mkWorld (cancels n (watcher (checkCanceled
                                        (mkWorld (cancels 1 fresh_watcher) [] [])).2))
                 sc' tr').
Proof.
  apply (cancellation_is_sticky (cancels 1 fresh_watcher) [] []). reflexivity.
Defined.

(** ** The long-poll driver *)

(** X9.  [waitForChanges] leaves the cursor and both maps of the store as
    they are, never calls the change callback, sends only long-poll requests,
    each with the stored cursor and the 30 seconds timeout, and returns true
    only with [hasMore] set. *)
Theorem long_poll_frame (fuel : nat) (σ : world) :
  Cursor (watcher (waitForChanges fuel σ).2) = Cursor (watcher σ)
  ∧ EntriesById (watcher (waitForChanges fuel σ).2) = EntriesById (watcher σ)
  ∧ EntriesByPath (watcher (waitForChanges fuel σ).2) = EntriesByPath (watcher σ)
  ∧ ((waitForChanges fuel σ).1 = Ret true →
     hasMore (watcher (waitForChanges fuel σ).2) = true)
  ∧ ∃ t, trace (waitForChanges fuel σ).2 = trace σ ++ t
         ∧ Forall (long_poll_event (Cursor (watcher σ))) t.
Proof.
  revert σ. induction fuel as [|fuel IH]; intros [w sc tr]; cbn [watcher trace].
  { rewrite waitForChanges_0. cbn. repeat split; try done.
    exists []. by rewrite app_nil_r. }
  destruct sc as [|x sc].
  { rewrite waitForChanges_blocked. cbn. repeat split; try done.
    exists []. by rewrite app_nil_r. }
  rewrite waitForChanges_eq. cbn zeta.
  destruct (cancels_frame (cancel_calls x) w) as (H1 & H2 & H3 & H4 & H5 & H6).
  destruct (after_check_frame (cancels (cancel_calls x) w)) as (H1' & H2' & H3' & H4').
  assert (Hexit : ∀ e w1 oe,
    Cursor w1 = Cursor w → EntriesById w1 = EntriesById w →
    EntriesByPath w1 = EntriesByPath w →
    let r := exit_with false e w1 sc
               (tr ++ [EvRPC (ListFolderLongpollReq (Cursor w) 30) oe]) in
    Cursor (watcher r.2) = Cursor w ∧ EntriesById (watcher r.2) = EntriesById w
    ∧ EntriesByPath (watcher r.2) = EntriesByPath w
    ∧ (r.1 = Ret true → hasMore (watcher r.2) = true)
    ∧ ∃ t, trace r.2 = tr ++ t ∧ Forall (long_poll_event (Cursor w)) t).
  { intros e w1 oe Hc Hi Hp. unfold exit_with.
    destruct (exitch w1); cbn [fst snd watcher trace].
    - repeat split; try done. eexists. split; [by rewrite <- app_assoc|].
      repeat constructor.
    - repeat split; try done. eexists. split; [done|]. repeat constructor. }
  destruct (rpc_error <$> rpc_err x) as [e|]; [by apply Hexit|].
  destruct (cancel_seen _); [apply Hexit; congruence|].
  assert (Hsl : Forall (long_poll_event (Cursor w)) (sleep_events (poll_res x))).
  { unfold sleep_events. destruct (0 <? _)%N; repeat constructor. }
  destruct (Changes (poll_res x)).
  - cbn [fst snd watcher trace set_hasMore set_cursor Cursor EntriesById
           EntriesByPath hasMore].
    repeat split; try done.
    eexists. split; [by rewrite <- app_assoc|].
    apply Forall_app. split; [repeat constructor|done].
  - match goal with |- context [waitForChanges fuel ?σ1] =>
      destruct (IH σ1) as (I1 & I2 & I3 & I4 & t & It & IF) end.
    cbn [watcher trace] in I1, I2, I3, It, IF.
    split; [congruence|]. split; [congruence|]. split; [congruence|].
    split; [done|].
    eexists. split; [rewrite It, <- !app_assoc; reflexivity|].
    apply Forall_app. split; [repeat constructor|].
    apply Forall_app. split; [done|]. by rewrite H3 in IF.
Qed.

(** X10.  A backoff within the range of [time.Duration] is honoured: for a
    long-poll response without error, with [0 < backoff <= 9223372036] and no
    cancellation observed, the driver sleeps [backoff] seconds right after
    the round trip, before it returns (changes reported, [hasMore] set) or
    sends the next long-poll (no changes). *)
Theorem backoff_honoured_in_range (fuel : nat) (w : FolderWatcher) (x : exchange)
    (sc : list exchange) (tr : list event) :
  rpc_err x = None → cancel_seen (cancels (cancel_calls x) w) = false →
  (0 < Backoff (poll_res x))%N → (Backoff (poll_res x) ≤ 9223372036)%N →
  let pause := (Z.of_N (Backoff (poll_res x)) * Second)%Z in
  let tr' := tr ++ [EvRPC (ListFolderLongpollReq (Cursor w) 30) None; EvSleep pause] in
  slept pause = pause
  ∧ waitForChanges (S fuel) (mkWorld w (x :: sc) tr)
    = if Changes (poll_res x)
      then (Ret true, mkWorld (set_hasMore (cancels (cancel_calls x) w) true) sc tr')
      else waitForChanges fuel (mkWorld (cancels (cancel_calls x) w) sc tr').
Proof.
  intros Herr Hseen Hpos Hle pause tr'. split.
  - unfold slept, pause, Second. lia.
  - rewrite waitForChanges_iteration by done. cbn zeta.
    unfold sleep_events. apply N.ltb_lt in Hpos. rewrite Hpos.
    by rewrite backoff_duration_small.
Qed.

Lemma backoff_honoured_in_range_example :
  slept (Z.of_N (Backoff (poll_res (polled false 7))) * Second)
    = (Z.of_N (Backoff (poll_res (polled false 7))) * Second)%Z
  ∧ waitForChanges 2 (mkWorld (tracking ∅ ∅) [polled false 7; polled true 0] [])
    = if Changes (poll_res (polled false 7))
      then (Ret true,
            mkWorld (set_hasMore (cancels (cancel_calls (polled false 7))
                                          (tracking ∅ ∅)) true)
                    [polled true 0]
                    ([] ++ [EvRPC (ListFolderLongpollReq (Cursor (tracking ∅ ∅)) 30) None;
                            EvSleep (Z.of_N (Backoff (poll_res (polled false 7)))
                                     * Second)]))
      else waitForChanges 1
             (mkWorld (cancels (cancel_calls (polled false 7)) (tracking ∅ ∅))
                      [polled true 0]
                      ([] ++ [EvRPC (ListFolderLongpollReq (Cursor (tracking ∅ ∅)) 30) None;
                              EvSleep (Z.of_N (Backoff (poll_res (polled false 7)))
                                       * Second)])).
Proof.
  apply (backoff_honoured_in_range 1 (tracking ∅ ∅) (polled false 7)
           [polled true 0] []); [reflexivity | reflexivity | reflexivity | ].
  cbn. lia.
Defined.

(** ** The inner loop of [Run] *)

(** X11.  When the inner loop of [Run] breaks (and the long-poll driver
    takes over), it has fetched exactly the pages up to the first one whose
    [has_more] is false: all of them came without error, every page before
    the last had [has_more] set, and the watcher holds the cursor of the last
    page with [hasMore] false. *)
Theorem fetch_loop_drains (fuel : nat) (σ σ' : world) :
  fetch_loop fuel σ = (Ret true, σ') →
  ∃ pages last,
    script σ = pages ++ last :: script σ'
    ∧ Forall (λ y, rpc_err y = None ∧ ListFolderResult.HasMore (list_res y) = true)
             pages
    ∧ rpc_err last = None
    ∧ ListFolderResult.HasMore (list_res last) = false
    ∧ hasMore (watcher σ') = false
    ∧ Cursor (watcher σ') = ListFolderResult.Cursor (list_res last).
Proof.
  revert σ. induction fuel as [|fuel IH]; intros [w sc tr] Hloop; [done|].
  rewrite fetch_loop_eq in Hloop.
  destruct sc as [|x sc]; [by rewrite fetch_blocked in Hloop|].
  rewrite fetch_eq in Hloop. cbn zeta in Hloop.
  destruct (rpc_err x) as [f|] eqn:Herr; cbn [fmap option_fmap option_map] in Hloop.
  { unfold exit_with in Hloop. by destruct (exitch _). }
  destruct (cancel_seen _).
  { unfold exit_with in Hloop. by destruct (exitch _). }
  match type of Hloop with context [apply_listing ?i ?w2 ?ents] =>
    destruct (apply_listing_cursor i w2 ents) as [Hc Hm];
    remember (apply_listing i w2 ents) as res eqn:Hres; clear Hres end.
  cbn [set_cursor Cursor hasMore] in Hc, Hm.
  cbn [fst snd watcher] in Hloop. rewrite Hm in Hloop.
  destruct (ListFolderResult.HasMore (list_res x)) eqn:Hmore.
  - apply IH in Hloop as (pages & last & Hsc & Hall & H1 & H2 & H3 & H4).
    cbn [script] in Hsc.
    exists (x :: pages), last. cbn [script]. rewrite Hsc.
    split; [done|]. split; [by constructor|done].
  - injection Hloop as <-. exists [], x. cbn [script watcher app].
    split; [done|]. split; [constructor|]. split; [done|]. split; [done|].
    by rewrite Hm, Hc.
Qed.

Lemma fetch_loop_drains_example :
  ∃ pages last,
    script (mkWorld fresh_watcher
              [listing [id1_at_x] "c1" true; listing [id2_at_y] "c2" false;
               polled true 0] [])
    = pages ++ last :: script (fetch_loop 3 (mkWorld fresh_watcher
              [listing [id1_at_x] "c1" true; listing [id2_at_y] "c2" false;
               polled true 0] [])).2
    ∧ Forall (λ y, rpc_err y = None ∧ ListFolderResult.HasMore (list_res y) = true)
             pages
    ∧ rpc_err last = None
    ∧ ListFolderResult.HasMore (list_res last) = false
    ∧ hasMore (watcher (fetch_loop 3 (mkWorld fresh_watcher
              [listing [id1_at_x] "c1" true; listing [id2_at_y] "c2" false;
               polled true 0] [])).2) = false
    ∧ Cursor (watcher (fetch_loop 3 (mkWorld fresh_watcher
              [listing [id1_at_x] "c1" true; listing [id2_at_y] "c2" false;
               polled true 0] [])).2)
      = ListFolderResult.Cursor (list_res last).
Proof.
  apply (fetch_loop_drains 3
           (mkWorld fresh_watcher
              [listing [id1_at_x] "c1" true; listing [id2_at_y] "c2" false;
               polled true 0] [])).
  vm_compute. reflexivity.
Defined.

(** ** [Client.RPC] and [checkRsp] *)

Lemma checkRsp_None (rsp : Response.t) (minst maxst : Z) :
  checkRsp rsp minst maxst = None
  ↔ (minst ≤ Response.StatusCode rsp ≤ maxst)%Z.
Proof.
  unfold checkRsp.
  destruct ((minst <=? Response.StatusCode rsp)%Z
            && (Response.StatusCode rsp <=? maxst)%Z) eqn:Hrange.
  - apply andb_true_iff in Hrange as [H1 H2].
    apply Z.leb_le in H1. apply Z.leb_le in H2. split; [lia|done].
  - split.
    + destruct (decide (Response.StatusCode rsp ≠ 404%Z));
        [destruct ((0 <? String.length (Response.Body rsp))%nat
                   && (String.length (Response.Body rsp) <? 200)%nat)|];
        intros H; discriminate H.
    + intros [H1 H2]. apply Z.leb_le in H1. apply Z.leb_le in H2.
      rewrite H1, H2 in Hrange. discriminate Hrange.
Qed.

Lemma checkRsp_Some (rsp : Response.t) (minst maxst : Z) (e : error) :
  checkRsp rsp minst maxst = Some e →
  ∃ detail,
    e = errorString (response_url rsp +:+ ": " +:+ detail)
    ∧ ((detail = Response.Body rsp
        ∧ Response.StatusCode rsp ≠ 404%Z
        ∧ (0 < String.length (Response.Body rsp) < 200)%nat)
       ∨ (detail = Response.Status rsp
          ∧ (Response.StatusCode rsp = 404%Z
             ∨ Response.Body rsp = ""
             ∨ (200 ≤ String.length (Response.Body rsp))%nat))).
Proof.
  unfold checkRsp. fold (response_url rsp).
  destruct ((minst <=? Response.StatusCode rsp)%Z
            && (Response.StatusCode rsp <=? maxst)%Z); [discriminate|].
  destruct (decide (Response.StatusCode rsp ≠ 404%Z)) as [Hne|Heq].
  - destruct ((0 <? String.length (Response.Body rsp))%nat
              && (String.length (Response.Body rsp) <? 200)%nat) eqn:Hlen;
      intros He; injection He as <-.
    + apply andb_true_iff in Hlen as [H1 H2].
      apply Nat.ltb_lt in H1. apply Nat.ltb_lt in H2.
      exists (Response.Body rsp). split; [done|]. left. done.
    + exists (Response.Status rsp). split; [done|]. right. split; [done|].
      right. apply andb_false_iff in Hlen as [H1|H2].
      * left. apply Nat.ltb_ge in H1.
        destruct (Response.Body rsp); [done|cbn in H1; lia].
      * right. by apply Nat.ltb_ge in H2.
  - intros He. injection He as <-.
    exists (Response.Status rsp). split; [done|]. right. split; [done|].
    left. destruct (decide (Response.StatusCode rsp = 404%Z)); [done|by destruct Heq].
Qed.

(** X12.  [checkRsp] accepts exactly the statuses of the given range.
    Otherwise its error is built by [errors.New] (so it is never
    [ErrCanceled]) from the URL of the request, or "?" without one, and a
    detail: the body when the status is not 404 and the body has from 1 to
    199 bytes, the status line in every other case, so that a 404 or a long
    body is never echoed. *)
Theorem checkRsp_spec (rsp : Response.t) (minst maxst : Z) :
  (checkRsp rsp minst maxst = None
   ↔ (minst ≤ Response.StatusCode rsp ≤ maxst)%Z)
  ∧ ∀ e, checkRsp rsp minst maxst = Some e →
      e ≠ ErrCanceled
      ∧ ∃ detail,
          e = errorString (response_url rsp +:+ ": " +:+ detail)
          ∧ ((detail = Response.Body rsp
              ∧ Response.StatusCode rsp ≠ 404%Z
              ∧ (0 < String.length (Response.Body rsp) < 200)%nat)
             ∨ (detail = Response.Status rsp
                ∧ (Response.StatusCode rsp = 404%Z
                   ∨ Response.Body rsp = ""
                   ∨ (200 ≤ String.length (Response.Body rsp))%nat))).
Proof.
  split; [apply checkRsp_None|].
  intros e He. destruct (checkRsp_Some _ _ _ _ He) as (detail & -> & Hd).
  split; [done|]. by exists detail.
Qed.


(** ** The header of a request *)

Lemma string_length_app (a b : string) :
  String.length (a +:+ b) = (String.length a + String.length b)%nat.
Proof.
  induction a as [|c a IH]; [done|].
  simpl. by f_equal.
Qed.

Lemma substring_prefix (p url : string) :
  String.substring 0 (String.length p) url = p ↔ ∃ rest, url = p +:+ rest.
Proof.
  revert url. induction p as [|c p IH]; intros url.
  - cbn. split; [intros _; by exists url|intros _; by destruct url].
  - destruct url as [|c' url]; cbn.
    + split; [discriminate|]. intros [rest H]. discriminate H.
    + split.
      * intros H. injection H as -> H. apply IH in H as [rest ->]. by exists rest.
      * intros [rest H]. injection H as -> ->.
        f_equal. apply IH. by exists rest.
Qed.

(** X14.  The access token goes to the API host only: the header of a
    request carries [Authorization: Bearer <token>] exactly when its URL
    extends [apiURLPrefix] by at least one byte, and always carries the JSON
    content type.  So the two listing requests carry the token and the
    long-poll request, sent to the notify host, never does. *)
Theorem authorization_header (c : Client) :
  (∀ url,
     RPC_header c url !! "Authorization"
     = Some ["Bearer " +:+ AccessToken c]
     ↔ ∃ rest, rest ≠ "" ∧ url = apiURLPrefix +:+ rest)
  ∧ (∀ url,
       RPC_header c url !! "Authorization" = None
       ∨ RPC_header c url !! "Authorization" = Some ["Bearer " +:+ AccessToken c])
  ∧ (∀ url, RPC_header c url !! "Content-Type" = Some ["application/json"])
  ∧ (∀ req,
       RPC_header c (request_url req) !! "Authorization"
       = match req with
         | ListFolderLongpollReq _ _ => None
         | _ => Some ["Bearer " +:+ AccessToken c]
         end).
Proof.
  assert (Hcases : ∀ url,
    RPC_header c url !! "Authorization"
    = if (String.length apiURLPrefix <? String.length url)%nat
         && bool_decide (String.substring 0 (String.length apiURLPrefix) url
                         = apiURLPrefix)
      then Some ["Bearer " +:+ AccessToken c] else None).
  { intros url. unfold RPC_header, Header_Add.
    destruct (_ && _).
    - rewrite lookup_insert_ne by done. rewrite lookup_insert_eq.
      by rewrite lookup_empty.
    - rewrite lookup_insert_ne by done. apply lookup_empty. }
  split; [|split; [|split]].
  - intros url. rewrite Hcases. split.
    + destruct (_ && _) eqn:Hc; [|discriminate]. intros _.
      apply andb_true_iff in Hc as [Hlen Hpre].
      apply Nat.ltb_lt in Hlen. apply bool_decide_eq_true in Hpre.
      apply substring_prefix in Hpre as [rest ->]. exists rest. split; [|done].
      intros ->. rewrite string_length_app in Hlen. cbn in Hlen. lia.
    + intros (rest & Hne & ->).
      assert (Hlen : (String.length apiURLPrefix
                      <? String.length (apiURLPrefix +:+ rest))%nat = true).
      { apply Nat.ltb_lt. rewrite string_length_app.
        destruct rest; [done|cbn; lia]. }
      rewrite Hlen. rewrite bool_decide_eq_true_2; [done|].
      apply substring_prefix. by exists rest.
  - intros url. rewrite Hcases. destruct (_ && _); [by right|by left].
  - intros url. unfold RPC_header, Header_Add.
    destruct (_ && _); rewrite lookup_insert_eq.
    + by rewrite lookup_insert_ne, lookup_empty.
    + by rewrite lookup_empty.
  - intros req. rewrite Hcases. by destruct req.
Qed.

(** ** [ImageType] *)

Lemma substring_5_not_image (t : string) : String.substring 0 5 t ≠ "image/".
Proof.
  intros H. apply (f_equal String.length) in H.
  destruct t as [|c1 [|c2 [|c3 [|c4 [|c5 t]]]]]; cbn in H; try discriminate H.
  destruct t; discriminate H.
Qed.

Lemma imageFileExts_values (ext v : string) :
  imageFileExts !! ext = Some v → v ∈ ["jpg"; "png"; "gif"].
Proof.
  unfold imageFileExts. intros H.
  repeat (rewrite lookup_insert in H; case_decide;
          [injection H as <-; set_solver|]).
  by rewrite lookup_empty in H.
Qed.

Lemma ImageType_not_photo (f : string → string) (e : MediaEntry) :
  is_photo e = false →
  ImageType f e
  = if decide (Tag (entry e) = "file")
    then default "" (imageFileExts !! Ext (PathLower (entry e)))
    else "".
Proof.
  intros Hp. unfold ImageType. fold (is_photo e). rewrite Hp.
  destruct (decide (Tag (entry e) ≠ "file")) as [Hne|Heq].
  - by rewrite decide_False.
  - rewrite decide_True by (by destruct (decide (Tag (entry e) = "file")); [|destruct Heq]).
    destruct (String.length (Ext (PathLower (entry e))) =? 0)%nat eqn:Hlen.
    + apply Nat.eqb_eq in Hlen.
      destruct (Ext (PathLower (entry e))); [done|discriminate Hlen].
    + destruct (imageFileExts !! Ext (PathLower (entry e))) as [v|]; cbn [default from_option id].
      * destruct (0 <? String.length v)%nat eqn:Hv; [done|].
        rewrite bool_decide_eq_false_2 by apply substring_5_not_image.
        rewrite andb_false_r. destruct v; [done|discriminate Hv].
      * cbn. rewrite bool_decide_eq_false_2 by apply substring_5_not_image.
        by rewrite andb_false_r.
Qed.

(** X15.  [ImageType] never depends on the mime tables of the host: its
    test [t[0:5] == "image/"] compares five bytes with six.  For an entry
    without photo metadata the result is therefore the value of
    [imageFileExts] at the extension of a file, one of "jpg", "png", "gif",
    and the empty string for anything else; it is the empty string for every
    entry that is not a file. *)
Theorem ImageType_table_only (f : string → string) (e : MediaEntry) :
  (∀ g, ImageType f e = ImageType g e)
  ∧ (is_photo e = false →
     ImageType f e
     = if decide (Tag (entry e) = "file")
       then default "" (imageFileExts !! Ext (PathLower (entry e)))
       else "")
  ∧ (is_photo e = false → ImageType f e ∈ [""; "jpg"; "png"; "gif"])
  ∧ (Tag (entry e) ≠ "file" → ImageType f e = "").
Proof.
  split; [|split; [|split]].
  - intros g. unfold ImageType.
    rewrite !(bool_decide_eq_false_2 (String.substring 0 5 _ = "image/"))
      by apply substring_5_not_image.
    by rewrite !andb_false_r.
  - apply ImageType_not_photo.
  - intros Hp. rewrite ImageType_not_photo by done.
    destruct (decide _); [|left].
    destruct (imageFileExts !! Ext (PathLower (entry e))) as [v|] eqn:Hv; [|left].
    cbn. right. by apply imageFileExts_values in Hv.
  - intros Hne. unfold ImageType. by rewrite decide_True.
Qed.

Lemma list_ascii_of_string_app (a b : string) :
  String.list_ascii_of_string (a +:+ b)
  = String.list_ascii_of_string a ++ String.list_ascii_of_string b.
Proof. induction a as [|c a IH]; [done|]. simpl. by f_equal. Qed.

Lemma Ext_scan_suffix (name : list ascii) : ∀ (rest suffix : list ascii),
  Forall (λ c, c ≠ "/"%char ∧ c ≠ "."%char) name →
  Ext_scan (rev name ++ "."%char :: rest) suffix = "."%char :: name ++ suffix.
Proof.
  induction name as [|c name IH] using rev_ind; intros rest suffix Hall.
  - cbn. by rewrite decide_False, decide_True.
  - apply Forall_app in Hall as [Hall Hc].
    apply Forall_singleton in Hc as [Hc1 Hc2].
    rewrite rev_app_distr. cbn [rev app Ext_scan].
    rewrite decide_False, decide_False by done.
    rewrite IH by done. by rewrite <- app_assoc.
Qed.

(** The extension of a path that ends with a dot and a name free of dots
    and slashes. *)
Lemma Ext_of_extension (stem name : string) :
  Forall (λ c, c ≠ "/"%char ∧ c ≠ "."%char) (String.list_ascii_of_string name) →
  Ext (stem +:+ "." +:+ name) = "." +:+ name.
Proof.
  intros Hall. unfold Ext.
  rewrite !list_ascii_of_string_app. cbn [String.list_ascii_of_string app].
  rewrite rev_app_distr. cbn [rev]. rewrite <- app_assoc. cbn [app].
  rewrite Ext_scan_suffix by done. rewrite app_nil_r.
  cbn [String.string_of_list_ascii String.append].
  by rewrite String.string_of_list_ascii_of_string.
Qed.

(** X16.  For a file whose path ends with a dot and an extension free of
    dots and slashes, [ImageType] is that extension when the entry carries
    the metadata of a photo, and otherwise "jpg" for "jpg" and "jpeg", "png"
    for "png", "gif" for "gif", and the empty string for any other
    extension. *)
Theorem ImageType_of_extension (f : string → string) (e : MediaEntry)
    (stem name : string) :
  Tag (entry e) = "file" →
  PathLower (entry e) = stem +:+ "." +:+ name →
  Forall (λ c, c ≠ "/"%char ∧ c ≠ "."%char) (String.list_ascii_of_string name) →
  ImageType f e
  = if is_photo e then name
    else if decide (name = "jpg" ∨ name = "jpeg") then "jpg"
    else if decide (name = "png") then "png"
    else if decide (name = "gif") then "gif"
    else "".
Proof.
  intros Htag Hpath Hname.
  destruct (is_photo e) eqn:Hp.
  - unfold ImageType. fold (is_photo e). rewrite Hp, Hpath, Ext_of_extension by done.
    by rewrite decide_False by (by intros H).
  - rewrite ImageType_not_photo by done.
    rewrite decide_True, Hpath, Ext_of_extension by done.
    unfold imageFileExts.
    change ("." +:+ name) with (String "." name).
    repeat (rewrite lookup_insert; case_decide);
      rewrite ?lookup_empty; cbn; repeat case_decide; simplify_eq;
      solve [done | intuition congruence].
Qed.

Lemma ImageType_of_extension_example :
  ImageType (λ _, "image/jpeg")
            (mkMediaEntry (row "file" "id1" "/pics/2016.05/cat.jpeg" "r") None)
  = if is_photo (mkMediaEntry (row "file" "id1" "/pics/2016.05/cat.jpeg" "r") None)
    then "jpeg"
    else if decide ("jpeg" = "jpg" ∨ "jpeg" = "jpeg") then "jpg"
    else if decide ("jpeg" = "png") then "png"
    else if decide ("jpeg" = "gif") then "gif"
    else "".
Proof.
  apply (ImageType_of_extension (λ _, "image/jpeg")
           (mkMediaEntry (row "file" "id1" "/pics/2016.05/cat.jpeg" "r") None)
           "/pics/2016.05/cat" "jpeg").
  - reflexivity.
  - reflexivity.
  - repeat constructor; discriminate.
Defined.

(** ** The order of [range delm] *)

(** X17.  Go enumerates [delm] in an unspecified order.  Whatever the order
    of the second loop of [fetch], the two maps it leaves are those of
    [reconcile], and [Removed] holds the same identities, the keys of [delm],
    each once: only the order of [Removed] depends on the enumeration. *)
Theorem delm_order_irrelevant (byId byPath : gmap string FolderEntry)
    (ents : list FolderEntry) (kvs : list (string * string)) :
  kvs ≡ₚ map_to_list (delm (fetch_entries (mkLoop byId byPath [] [] ∅) ents)) →
  let s := fetch_entries (mkLoop byId byPath [] [] ∅) ents in
  let r := range_delm (mkResolve (lById s) (lByPath s)
                                 (replicate (length kvs) "") 0) kvs in
  rById r = (reconcile byId byPath ents).1.1
  ∧ rByPath r = (reconcile byId byPath ents).1.2
  ∧ rRemoved r ≡ₚ Removed (reconcile byId byPath ents).2
  ∧ NoDup (rRemoved r)
  ∧ (∀ id, id ∈ rRemoved r ↔ is_Some (delm s !! id)).
Proof.
  intros Hp s r.
  destruct (range_delm_perm kvs (map_to_list (delm s)) (lById s) (lByPath s) Hp)
    as (HbyId & HbyPath & Hrem).
  rewrite length_map_to_list in HbyId, HbyPath, Hrem.
  assert (Hr : rRemoved r = kvs.*1).
  { pose proof (range_delm_removed kvs (lById s) (lByPath s) []) as H.
    cbn [app length] in H. exact H. }
  split; [exact HbyId|]. split; [exact HbyPath|]. split; [exact Hrem|].
  rewrite Hr. split.
  - rewrite Hp. apply NoDup_fst_map_to_list.
  - intros id. rewrite Hp. apply elem_of_fst_map_to_list.
Qed.

Lemma delm_order_irrelevant_example :
  let byId : gmap string FolderEntry := <["id1" := id1_at_x]> (<["id2" := id2_at_y]> ∅) in
  let byPath : gmap string FolderEntry := <["/x" := id1_at_x]> (<["/y" := id2_at_y]> ∅) in
  let ents := [tombstone "/x"; tombstone "/y"] in
  let kvs := [("id2", "/y"); ("id1", "/x")] in
  let s := fetch_entries (mkLoop byId byPath [] [] ∅) ents in
  let r := range_delm (mkResolve (lById s) (lByPath s)
                                 (replicate (length kvs) "") 0) kvs in
  rById r = (reconcile byId byPath ents).1.1
  ∧ rByPath r = (reconcile byId byPath ents).1.2
  ∧ rRemoved r ≡ₚ Removed (reconcile byId byPath ents).2
  ∧ NoDup (rRemoved r)
  ∧ (∀ id, id ∈ rRemoved r ↔ is_Some (delm s !! id)).
Proof.
  intros byId byPath ents kvs s.
  apply (delm_order_irrelevant byId byPath ents kvs).
  assert (Hl : map_to_list (delm s) = [("id1", "/x"); ("id2", "/y")]
               ∨ map_to_list (delm s) = [("id2", "/y"); ("id1", "/x")]).
  { vm_compute. tauto. }
  fold s. subst kvs. destruct Hl as [-> | ->];
    first [reflexivity | apply perm_swap].
Defined.
